(** * Contextual amount extraction (fin_logic.py): a shallow embedding

    The development follows [src/fin_logic.py]:
    - [clean_monetary_value]              (the Value Normalizer),
    - [extract_contextual_amounts]        (the Geometric Context Matcher),
    - [extract_contextual_amounts_from_text] (the Sequential Context Matcher),
    - [label_amounts_with_llm]            (the hand-off to the labeling chain).

    A Python [str] is a sequence of Unicode code points, so it is modelled
    as a list of code points.  Exceptions are modelled by [option]: [None]
    stands for a raised [IndexError]. *)

From Stdlib Require Import List Bool Arith Lia NArith ZArith QArith Qabs.
From Stdlib Require Import Ascii String.
From Stdlib Require Import Sorted.
Import ListNotations.

Close Scope Q_scope.
Set Implicit Arguments.

(** ** Python strings *)

Definition char := N.
Definition pystr := list char.

(** An ASCII literal as a Python string (byte value = code point). *)
Definition str (s : string) : pystr := map N_of_ascii (list_ascii_of_string s).

Definition chr (a : ascii) : char := N_of_ascii a.

(** The three currency signs outside ASCII. *)
Definition EURO_SIGN : char := 8364%N.    (* U+20AC *)
Definition POUND_SIGN : char := 163%N.    (* U+00A3 *)
Definition RUPEE_SIGN : char := 8377%N.   (* U+20B9 *)

Definition pystr_eqb (a b : pystr) : bool :=
  if list_eq_dec N.eq_dec a b then true else false.

(** *** Character categories of CPython

    [\d] in a [str] pattern is [Py_UNICODE_ISDECIMAL]: the code points of
    general category Nd.  They come in runs of ten starting at a digit
    zero; the table lists the zeros (Unicode 14.0.0). *)
Definition decimal_zeros : list N :=
  [ 48; 1632; 1776; 1984; 2406; 2534; 2662; 2790; 2918; 3046; 3174; 3302;
    3430; 3558; 3664; 3792; 3872; 4160; 4240; 6112; 6160; 6470; 6608; 6784;
    6800; 6992; 7088; 7232; 7248; 42528; 43216; 43264; 43472; 43504; 43600;
    44016; 65296; 66720; 68912; 69734; 69872; 69942; 70096; 70384; 70736;
    70864; 71248; 71360; 71472; 71904; 72016; 72784; 73040; 73120; 92768;
    92864; 93008; 120782; 120792; 120802; 120812; 120822; 123200; 123632;
    125264; 130032 ]%N.

Definition isdecimal (c : char) : bool :=
  existsb (fun z => (z <=? c)%N && (c <? z + 10)%N) decimal_zeros.

(** [\s] in a [str] pattern, [str.strip()] and [str.split()] all use
    [Py_UNICODE_ISSPACE]. *)
Definition isspace (c : char) : bool :=
  ((9 <=? c) && (c <=? 13) || (28 <=? c) && (c <=? 32)
   || (c =? 133) || (c =? 160) || (c =? 5760)
   || (8192 <=? c) && (c <=? 8202)
   || (c =? 8232) || (c =? 8233) || (c =? 8239) || (c =? 8287)
   || (c =? 12288))%N.

(** ** Part 2 of the source: [clean_monetary_value] *)

(** [str.replace(old, new)] for one-character [old] and [new]: every
    occurrence is replaced. *)
Definition replace (old new : char) (s : pystr) : pystr :=
  map (fun c => if (c =? old)%N then new else c) s.

(** The [corrections] dict, in insertion order (the order [items()]
    iterates in). *)
Definition corrections : list (char * char) :=
  [ (chr "O", chr "0"); (chr "o", chr "0"); (chr "l", chr "1");
    (chr "I", chr "1"); (chr "Z", chr "2"); (chr "g", chr "9");
    (chr "q", chr "9"); (chr "B", chr "8") ].

(** The [for error, correction in corrections.items()] loop. *)
Definition apply_corrections (numeric_part : pystr) : pystr :=
  fold_left (fun acc ec => replace (fst ec) (snd ec) acc) corrections
            numeric_part.

(** [value[0]] raises [IndexError] on the empty string. *)
Definition clean_monetary_value (value : pystr) : option pystr :=
  match value with
  | [] => None
  | symbol :: numeric_part => Some (symbol :: apply_corrections numeric_part)
  end.

(** The keys of [corrections]. *)
Definition is_confusion (c : char) : bool :=
  existsb (fun ec => (c =? fst ec)%N) corrections.

(** What one character of the numeric part becomes. *)
Definition correct_char (c : char) : char :=
  fold_left (fun a ec => if (a =? fst ec)%N then snd ec else a) corrections c.


(** ** Python's [re]: a backtracking matcher

    The patterns of the source are built from literals, character classes,
    sequencing, ordered alternation and greedy bounded or unbounded
    repetition.  Capturing groups do not change which text is matched and
    the source only reads [group(0)], so they are not represented. *)

Inductive regex : Type :=
| Eps : regex
| Chr (c : char) : regex
| Cls (p : char -> bool) : regex
| Seq (r1 r2 : regex) : regex
| Alt (r1 r2 : regex) : regex
| Rep (r : regex) (lo : nat) (hi : option nat) : regex.

Definition Opt (r : regex) : regex := Rep r 0 (Some 1).    (* r?  *)
Definition Plus (r : regex) : regex := Rep r 1 None.       (* r+  *)

(** A literal word such as [INR]. *)
Definition lit (w : pystr) : regex := fold_right (fun c r => Seq (Chr c) r) Eps w.

(** [r1|r2|...|rn], tried in this order. *)
Fixpoint alts (rs : list regex) : regex :=
  match rs with
  | [] => Cls (fun _ => false)
  | [r] => r
  | r :: rs' => Alt r (alts rs')
  end.

(** A matcher consumes a prefix of the subject and hands the rest to its
    continuation; [None] makes the caller backtrack. *)
Definition matcher (A : Type) := pystr -> (pystr -> option A) -> option A.

Definition or_else {A} (x y : option A) : option A :=
  match x with Some _ => x | None => y end.

(** Greedy repetition: one more iteration is tried first, and only when
    that fails does the loop stop (if [lo] iterations were made).  As in
    CPython's engine an iteration that consumes nothing ends the loop;
    [fuel] bounds the iterations by the length of the subject. *)
Fixpoint rep_loop {A} (body : matcher A) (fuel lo : nat) (hi : option nat)
         (s : pystr) (k : pystr -> option A) : option A :=
  match fuel with
  | O => if Nat.eqb lo 0 then k s else None
  | S fuel' =>
      or_else
        (match hi with
         | Some O => None
         | _ => body s (fun s' =>
                  if Nat.ltb (List.length s') (List.length s)
                  then rep_loop body fuel' (Nat.pred lo) (option_map Nat.pred hi) s' k
                  else None)
         end)
        (if Nat.eqb lo 0 then k s else None)
  end.

Fixpoint bt {A} (r : regex) : matcher A :=
  fun s k =>
  match r with
  | Eps => k s
  | Chr c => match s with
             | x :: s' => if (x =? c)%N then k s' else None
             | [] => None
             end
  | Cls p => match s with
             | x :: s' => if p x then k s' else None
             | [] => None
             end
  | Seq r1 r2 => bt r1 s (fun s' => bt r2 s' k)
  | Alt r1 r2 => or_else (bt r1 s k) (bt r2 s k)
  | Rep r0 lo hi => rep_loop (bt r0) (S (List.length s)) lo hi s k
  end.

(** [re.fullmatch(pattern, text)] as a truth value. *)
Definition fullmatch (r : regex) (text : pystr) : bool :=
  match bt r text (fun rest => match rest with [] => Some tt | _ => None end) with
  | Some _ => true
  | None => false
  end.

(** The match the engine finds at the head of [s], as its length. *)
Definition match_len (r : regex) (s : pystr) : option nat :=
  option_map (fun rest => List.length s - List.length rest) (bt r s (@Some pystr)).

(** [re.finditer]: the spans [(start, end)] of the successive
    non-overlapping matches, scanning from left to right.  [s] is the text
    from position [pos] on; after a match of length [n] the next [n - 1]
    positions are skipped.  (The patterns of the source match no empty
    word; for an empty match the scan just moves on by one.) *)
Fixpoint finditer_from (r : regex) (s : pystr) (pos skip : nat) : list (nat * nat) :=
  match s with
  | [] => match skip, match_len r [] with
          | O, Some n => [(pos, pos + n)]
          | _, _ => []
          end
  | _ :: s' =>
      match skip with
      | S j => finditer_from r s' (S pos) j
      | O => match match_len r s with
             | Some n => (pos, pos + n) :: finditer_from r s' (S pos) (Nat.pred n)
             | None => finditer_from r s' (S pos) 0
             end
      end
  end.

Definition finditer (r : regex) (text : pystr) : list (nat * nat) :=
  finditer_from r text 0 0.

(** *** The two patterns of the source *)

(** [(\$|S|€|£|₹|INR|USD|EUR|GBP)] *)
Definition currency_markers : list pystr :=
  [ str "$"; str "S"; [EURO_SIGN]; [POUND_SIGN]; [RUPEE_SIGN];
    str "INR"; str "USD"; str "EUR"; str "GBP" ].

Definition currency_marker : regex := alts (map lit currency_markers).

(** [[\d,OolISZgqB\.]] *)
Definition noisy_digit (c : char) : bool :=
  isdecimal c || existsb (N.eqb c) (str ",OolISZgqB.").

(** [r"(\$|S|€|£|₹|INR|USD|EUR|GBP)\s?([\d,OolISZgqB\.]+)"] *)
Definition geo_money_pattern : regex :=
  Seq currency_marker (Seq (Opt (Cls isspace)) (Plus (Cls noisy_digit))).

(** [[\d,]] *)
Definition digit_or_comma (c : char) : bool :=
  isdecimal c || (c =? chr ",")%N.

(** [r"((?:(?:\$|S|€|£|₹|INR|USD|EUR|GBP)\s?)?[\d,]+(?:\.\d{1,2})?%?)"] *)
Definition text_money_pattern : regex :=
  Seq (Opt (Seq currency_marker (Opt (Cls isspace))))
      (Seq (Plus (Cls digit_or_comma))
           (Seq (Opt (Seq (Chr (chr ".")) (Rep (Cls isdecimal) 1 (Some 2))))
                (Opt (Chr (chr "%"))))).

(** ** Python sequence operations used by the matchers *)

(** A slice index as Python normalises it: a negative index counts from
    the end, and the result is clamped to [0 .. len]. *)
Definition slice_index (len : nat) (i : Z) : nat :=
  if (i <? 0)%Z then Z.to_nat (Z.max 0 (Z.of_nat len + i))
  else Nat.min (Z.to_nat i) len.

(** [l[lo:hi]]; an omitted bound is [None]. *)
Definition slice {A} (l : list A) (lo hi : option Z) : list A :=
  let len := List.length l in
  let a := match lo with Some i => slice_index len i | None => O end in
  let b := match hi with Some i => slice_index len i | None => len end in
  firstn (b - a) (skipn a l).

Fixpoint lstrip (s : pystr) : pystr :=
  match s with
  | c :: s' => if isspace c then lstrip s' else s
  | [] => []
  end.

Definition rstrip (s : pystr) : pystr := rev (lstrip (rev s)).

(** [str.strip()] *)
Definition strip (s : pystr) : pystr := lstrip (rstrip s).

(** [str.split()] with no separator: the maximal runs of non-whitespace
    characters.  [cur] is the run being read, reversed. *)
Fixpoint split_from (cur : pystr) (s : pystr) : list pystr :=
  match s with
  | [] => match cur with [] => [] | _ => [rev cur] end
  | c :: s' =>
      if isspace c
      then match cur with
           | [] => split_from [] s'
           | _ => rev cur :: split_from [] s'
           end
      else split_from (c :: cur) s'
  end.

Definition split (s : pystr) : list pystr := split_from [] s.

(** [sep.join(words)] *)
Fixpoint join (sep : pystr) (words : list pystr) : pystr :=
  match words with
  | [] => []
  | [w] => w
  | w :: ws => w ++ sep ++ join sep ws
  end.

(** [s.find(c)] and [s.rfind(c)] for a one-character [c]: an index, or
    [-1]. *)
Fixpoint find_from (c : char) (s : pystr) (i : Z) : Z :=
  match s with
  | [] => (-1)%Z
  | x :: s' => if (x =? c)%N then i else find_from c s' (i + 1)%Z
  end.

Definition find (c : char) (s : pystr) : Z := find_from c s 0%Z.

Fixpoint rfind_from (c : char) (s : pystr) (i : Z) (last : Z) : Z :=
  match s with
  | [] => last
  | x :: s' => rfind_from c s' (i + 1)%Z (if (x =? c)%N then i else last)
  end.

Definition rfind (c : char) (s : pystr) : Z := rfind_from c s 0%Z (-1)%Z.

(** ** The records both matchers emit: [{"amount": ..., "context": ...}] *)

Record record : Type := { amount : pystr; context : pystr }.

Definition Unknown : pystr := str "Unknown".

(** ** [extract_contextual_amounts]

    The fragments are what [reader.readtext] returned: triples of a box
    of four corner points, a text and a confidence.  Coordinates are
    rationals and arithmetic on them is exact (pixel coordinates are
    integers or halves, far below the precision of a float). *)

Definition point : Type := Q * Q.

(** [bbox[0]], [bbox[1]], [bbox[2]], [bbox[3]] *)
Record bbox_t : Type := { bbox0 : point; bbox1 : point; bbox2 : point; bbox3 : point }.

Definition ocr_fragment : Type := bbox_t * pystr * Q.

(** [{"bbox": bbox, "text": text}] *)
Record fragment : Type := { bbox : bbox_t; text : pystr }.

Definition Qltb (a b : Q) : bool := negb (Qle_bool b a).

(** [min_distance]: a rational or [float('inf')]. *)
Definition lt_min (distance : Q) (min_distance : option Q) : bool :=
  match min_distance with
  | None => true
  | Some m => Qltb distance m
  end.

Definition is_amount_fragment (text : pystr) : bool :=
  fullmatch geo_money_pattern text.

(** The first loop: each fragment is appended to one of the two lists. *)
Definition classify (all_fragments : list ocr_fragment) : list fragment * list fragment :=
  fold_left
    (fun (st : list fragment * list fragment) (f : ocr_fragment) =>
       let '(bbox, text, conf) := f in
       let '(amount_fragments, other_fragments) := st in
       if is_amount_fragment text
       then (amount_fragments ++ [{| bbox := bbox; text := text |}], other_fragments)
       else (amount_fragments, other_fragments ++ [{| bbox := bbox; text := text |}]))
    all_fragments ([], []).

(** [(f["bbox"][0][1] + f["bbox"][2][1]) / 2] *)
Definition y_center (f : fragment) : Q :=
  ((snd (bbox0 (bbox f)) + snd (bbox2 (bbox f))) / 2)%Q.

Definition ax_left (amount : fragment) : Q := fst (bbox0 (bbox amount)).
Definition ox_right (other : fragment) : Q := fst (bbox1 (bbox other)).

(** The test of line 58. *)
Definition qualifies (amount other : fragment) : bool :=
  Qltb (Qabs (y_center amount - y_center other)) 20 &&
  Qltb (ox_right other) (ax_left amount).

Definition distance (amount other : fragment) : Q :=
  (ax_left amount - ox_right other)%Q.

(** One turn of the inner loop on [(best_candidate, min_distance)]. *)
Definition match_step (amount : fragment) (st : option pystr * option Q)
           (other : fragment) : option pystr * option Q :=
  if qualifies amount other
  then if lt_min (distance amount other) (snd st)
       then (Some (text other), Some (distance amount other))
       else st
  else st.

(** The inner loop, from [best_candidate = None], [min_distance = inf]. *)
Definition best_match (amount : fragment) (other_fragments : list fragment)
  : option pystr * option Q :=
  fold_left (match_step amount) other_fragments (None, None).

(** [best_candidate or "Unknown"]: [None] and the empty string are falsy. *)
Definition or_unknown (best_candidate : option pystr) : pystr :=
  match best_candidate with
  | None | Some [] => Unknown
  | Some t => t
  end.

(** The outer loop; a raising [clean_monetary_value] ends it. *)
Fixpoint pair_amounts (amount_fragments other_fragments : list fragment)
  : option (list record) :=
  match amount_fragments with
  | [] => Some []
  | amount :: rest =>
      let best_candidate := fst (best_match amount other_fragments) in
      match clean_monetary_value (text amount) with
      | None => None
      | Some cleaned_amount =>
          option_map
            (cons {| amount := cleaned_amount; context := or_unknown best_candidate |})
            (pair_amounts rest other_fragments)
      end
  end.

Definition extract_contextual_amounts (all_fragments : list ocr_fragment)
  : option (list record) :=
  let '(amount_fragments, other_fragments) := classify all_fragments in
  pair_amounts amount_fragments other_fragments.

(** ** [extract_contextual_amounts_from_text] *)

(** [max(0, match.start() - 30)] *)
Definition context_window_start (start : nat) : Z := Z.max 0 (Z.of_nat start - 30).

(** [text_input[context_window_start : match.start()]] *)
Definition context_window (text_input : pystr) (start : nat) : pystr :=
  slice text_input (Some (context_window_start start)) (Some (Z.of_nat start)).

(** [" ".join(words_in_window[-2:]) if words_in_window else "Unknown"] *)
Definition window_label (window : pystr) : pystr :=
  let words_in_window := split (strip window) in
  match words_in_window with
  | [] => Unknown
  | _ => join (str " ") (slice words_in_window (Some (-2)%Z) None)
  end.

(** The body of the loop for the match [text_input[start:stop]]. *)
Definition record_of_match (text_input : pystr) (m : nat * nat) : option record :=
  let '(start, stop) := m in
  let amount_text := slice text_input (Some (Z.of_nat start)) (Some (Z.of_nat stop)) in
  let best_candidate := window_label (context_window text_input start) in
  match clean_monetary_value amount_text with
  | None => None
  | Some cleaned_amount =>
      Some {| amount := cleaned_amount; context := best_candidate |}
  end.

Fixpoint records_of_matches (text_input : pystr) (ms : list (nat * nat))
  : option (list record) :=
  match ms with
  | [] => Some []
  | m :: ms' =>
      match record_of_match text_input m with
      | None => None
      | Some r => option_map (cons r) (records_of_matches text_input ms')
      end
  end.

Definition extract_contextual_amounts_from_text (text_input : pystr)
  : option (list record) :=
  records_of_matches text_input (finditer text_money_pattern text_input).

(** ** [label_amounts_with_llm]

    The labeling chain ([prompt | llm | StrOutputParser()]) is an external
    collaborator: a program either returns or invokes the chain on a
    [context_string] and goes on with the raw response. *)

Inductive chain_prog (A : Type) : Type :=
| Ret (a : A) : chain_prog A
| Invoke (context_string : pystr) (k : pystr -> chain_prog A) : chain_prog A.

Arguments Ret {A} a.
Arguments Invoke {A} context_string k.

(** Running a program against a chain [llm]: the value returned and the
    inputs the chain was invoked with, in order. *)
Fixpoint run {A} (llm : pystr -> pystr) (p : chain_prog A) : A * list pystr :=
  match p with
  | Ret a => (a, [])
  | Invoke context_string k =>
      let '(a, calls) := run llm (k (llm context_string)) in
      (a, context_string :: calls)
  end.

(** What the function returns: a dict of strings built by the source
    itself, or whatever [json.loads] produced. *)
Inductive outcome (J : Type) : Type :=
| Dict (items : list (pystr * pystr)) : outcome J
| Loaded (v : J) : outcome J.

Arguments Dict {J} items.
Arguments Loaded {J} v.

Definition no_amounts_found {J} : outcome J :=
  Dict [ (str "status", str "no_amounts_found");
         (str "reason", str "OCR found no amounts to process.") ].

Definition invalid_json {J} (response_str : pystr) : outcome J :=
  Dict [ (str "status", str "error");
         (str "reason", str "LLM returned invalid JSON.");
         (str "raw_output", response_str) ].

(** [f"- Amount: {item['amount']}, Nearby Text: {item['context']}"] *)
Definition amount_line (item : record) : pystr :=
  str "- Amount: " ++ amount item ++ str ", Nearby Text: " ++ context item.

Definition NEWLINE : pystr := [10%N].

Definition context_string_of (contextual_data : list record) : pystr :=
  join NEWLINE (map amount_line contextual_data).

Section Labeling.

(** [json.loads]: the loaded document, or [None] for a raised
    [json.JSONDecodeError]. *)
Variable J : Type.
Variable json_loads : pystr -> option J.

(** The [try] block: [None] is a [JSONDecodeError], raised by
    [json.loads] or by the [else] branch. *)
Definition load_response (response_str : pystr) : option J :=
  let start_index := find (chr "{") response_str in
  let end_index := rfind (chr "}") response_str in
  if negb (start_index =? -1)%Z && negb (end_index =? -1)%Z
  then
    let clean_json_str :=
      slice response_str (Some start_index) (Some (end_index + 1)%Z) in
    json_loads clean_json_str
  else None.

Definition parse_response (response_str : pystr) : outcome J :=
  match load_response response_str with
  | Some v => Loaded v
  | None => invalid_json response_str
  end.

Definition label_amounts_with_llm (contextual_data : list record)
  : chain_prog (outcome J) :=
  match contextual_data with
  | [] => Ret no_amounts_found
  | _ =>
      let context_string := context_string_of contextual_data in
      Invoke context_string (fun response_str => Ret (parse_response response_str))
  end.

End Labeling.

(** ** The grammar of Amount Fragments as the specification words it

    An optional currency marker, optionally followed by one blank, then
    one or more characters of the noisy-digit alphabet. *)
Definition spec_amount_grammar : regex :=
  Seq (Opt (Seq currency_marker (Opt (Cls isspace)))) (Plus (Cls noisy_digit)).

(** The confusion table as the specification gives it:
    O,o -> 0; l,I -> 1; Z -> 2; g,q -> 9; B -> 8. *)
Definition spec_table (c : char) : char :=
  if ((c =? chr "O") || (c =? chr "o"))%N then chr "0"
  else if ((c =? chr "l") || (c =? chr "I"))%N then chr "1"
  else if (c =? chr "Z")%N then chr "2"
  else if ((c =? chr "g") || (c =? chr "q"))%N then chr "9"
  else if (c =? chr "B")%N then chr "8"
  else c.

(** ** The words a pattern denotes

    [lang r m]: the word [m] is matched by [r].  An iteration of a
    repetition consumes at least one character. *)
Inductive lang : regex -> pystr -> Prop :=
| L_Eps : lang Eps []
| L_Chr c : lang (Chr c) [c]
| L_Cls (p : char -> bool) c : p c = true -> lang (Cls p) [c]
| L_Seq r1 r2 m1 m2 : lang r1 m1 -> lang r2 m2 -> lang (Seq r1 r2) (m1 ++ m2)
| L_AltL r1 r2 m : lang r1 m -> lang (Alt r1 r2) m
| L_AltR r1 r2 m : lang r2 m -> lang (Alt r1 r2) m
| L_Rep0 r hi : lang (Rep r 0 hi) []
| L_RepS r lo hi m1 m2 :
    hi <> Some 0 -> m1 <> [] ->
    lang r m1 -> lang (Rep r (Nat.pred lo) (option_map Nat.pred hi)) m2 ->
    lang (Rep r lo hi) (m1 ++ m2).

(** Can the pattern match the empty word? *)
Fixpoint nullable (r : regex) : bool :=
  match r with
  | Eps => true
  | Chr _ | Cls _ => false
  | Seq r1 r2 => nullable r1 && nullable r2
  | Alt r1 r2 => nullable r1 || nullable r2
  | Rep _ lo _ => Nat.eqb lo 0
  end.


(** The text of a recognised fragment and the dict the first loop makes
    of it. *)
Definition ocr_text (f : ocr_fragment) : pystr := snd (fst f).

Definition fragment_of (f : ocr_fragment) : fragment :=
  {| bbox := fst (fst f); text := snd (fst f) |}.

(** The candidate the pairing rule of the specification designates among
    [others]: it qualifies, no qualifying candidate is nearer, and every
    qualifying candidate before it is strictly farther. *)
Definition nearest_first (amount : fragment) (others : list fragment)
           (i : nat) (other : fragment) : Prop :=
  nth_error others i = Some other /\
  qualifies amount other = true /\
  forall j other',
    nth_error others j = Some other' -> qualifies amount other' = true ->
    (distance amount other <= distance amount other')%Q /\
    (j < i -> (distance amount other < distance amount other')%Q).

(** [amount] is [matched] with its first character kept and the rest
    mapped through the confusion table. *)
Definition normalized_from (matched amount : pystr) : Prop :=
  exists symbol rest,
    matched = symbol :: rest /\ amount = symbol :: map spec_table rest.

(** [d[key]] on a dict given by its items. *)
Fixpoint dict_get (key : pystr) (items : list (pystr * pystr)) : option pystr :=
  match items with
  | [] => None
  | (k, v) :: items' => if pystr_eqb k key then Some v else dict_get key items'
  end.

(** A matcher agrees with the words of a pattern: whatever it accepts
    splits into a word and a rest the continuation accepts, and it accepts
    whenever such a split exists. *)
Definition sound_matcher {A} (body : matcher A) (r : regex) : Prop :=
  forall s k x, body s k = Some x ->
    exists m s', s = m ++ s' /\ lang r m /\ k s' = Some x.

Definition complete_matcher {A} (body : matcher A) (r : regex) : Prop :=
  forall m, lang r m -> forall s' k, k s' <> None -> body (m ++ s') k <> None.

(** What the inner loop holds after the candidates [others]. *)
Definition loop_invariant (amount : fragment) (others : list fragment)
           (st : option pystr * option Q) : Prop :=
  match st with
  | (None, None) =>
      forall other, In other others -> qualifies amount other = false
  | (Some t, Some d) =>
      exists i other, nearest_first amount others i other /\
                      t = text other /\ d = distance amount other
  | _ => False
  end.

(** ** Shapes of the emitted amounts *)

(** What the normalizer makes of a currency marker at the head of its
    argument: the [B] of [GBP] is past the first character. *)
Definition normalized_marker (marker : pystr) : pystr :=
  if pystr_eqb marker (str "GBP") then str "G8P" else marker.

(** A character the normalizer can leave in the numeric run of a
    fragment. *)
Definition clean_run_char (c : char) : bool :=
  isdecimal c || (c =? chr ",")%N || (c =? chr ".")%N || (c =? chr "S")%N.

(** The words of the sequential matcher's pattern, part by part. *)
Definition text_amount_shape (prefix digits frac pct : pystr) : Prop :=
  (prefix = [] \/
   exists marker blank,
     prefix = marker ++ blank /\ In marker currency_markers /\
     (blank = [] \/ exists c, blank = [c] /\ isspace c = true)) /\
  digits <> [] /\ Forall (fun c => digit_or_comma c = true) digits /\
  (frac = [] \/
   exists a, isdecimal a = true /\
             (frac = [chr "."; a] \/
              exists b, isdecimal b = true /\ frac = [chr "."; a; b])) /\
  (pct = [] \/ pct = [chr "%"]).

(** The spans of successive matches: each one ends before the next
    starts. *)
Definition span_before (a b : nat * nat) : Prop := snd a <= fst b.

(** A token of [str.split()]: non-empty and free of whitespace. *)
Definition is_token (w : pystr) : Prop :=
  w <> [] /\ Forall (fun c => isspace c = false) w.

(** ** The serving layer: [main.py]

    An endpoint reads the text recogniser, prints, invokes the labeling
    chain and writes JSON files; these are the events of its run.  The
    arguments are what FastAPI hands over: the bytes of the uploaded file,
    or the [text] field of the request. *)

Definition bytes := list N.

(** What [json.dump] is given. *)
Inductive payload (J : Type) : Type :=
| RecordsPayload (contextual_data : list record) : payload J
| OutcomePayload (labeled_data : outcome J) : payload J.

Arguments RecordsPayload {J} contextual_data.
Arguments OutcomePayload {J} labeled_data.

Inductive serve_prog (J A : Type) : Type :=
| SRet (a : A) : serve_prog J A
| SReadText (image_bytes : bytes) (k : list ocr_fragment -> serve_prog J A)
  : serve_prog J A
| SPrint (contextual_amounts : list record) (k : serve_prog J A) : serve_prog J A
| SInvoke (context_string : pystr) (k : pystr -> serve_prog J A) : serve_prog J A
| SDump (filename : pystr) (data : payload J) (k : serve_prog J A) : serve_prog J A.

Arguments SRet {J A} a.
Arguments SReadText {J A} image_bytes k.
Arguments SPrint {J A} contextual_amounts k.
Arguments SInvoke {J A} context_string k.
Arguments SDump {J A} filename data k.

(** A call of a function of [fin_logic] that talks to the chain, followed
    by the rest of the endpoint. *)
Fixpoint call_chain {J A B} (p : chain_prog A) (k : A -> serve_prog J B)
  : serve_prog J B :=
  match p with
  | Ret a => k a
  | Invoke context_string k' =>
      SInvoke context_string (fun response_str => call_chain (k' response_str) k)
  end.

Inductive event (J : Type) : Type :=
| EReadText (image_bytes : bytes) : event J
| EPrint (contextual_amounts : list record) : event J
| EInvoke (context_string : pystr) : event J
| EDump (filename : pystr) (data : payload J) : event J.

Arguments EReadText {J} image_bytes.
Arguments EPrint {J} contextual_amounts.
Arguments EInvoke {J} context_string.
Arguments EDump {J} filename data.

(** A run against a recogniser [readtext] and a chain [llm]: the value
    returned and the events, in order. *)
Fixpoint serve {J A} (readtext : bytes -> list ocr_fragment)
         (llm : pystr -> pystr) (p : serve_prog J A) : A * list (event J) :=
  match p with
  | SRet a => (a, [])
  | SReadText image_bytes k =>
      let '(a, evs) := serve readtext llm (k (readtext image_bytes)) in
      (a, EReadText image_bytes :: evs)
  | SPrint contextual_amounts k =>
      let '(a, evs) := serve readtext llm k in
      (a, EPrint contextual_amounts :: evs)
  | SInvoke context_string k =>
      let '(a, evs) := serve readtext llm (k (llm context_string)) in
      (a, EInvoke context_string :: evs)
  | SDump filename data k =>
      let '(a, evs) := serve readtext llm k in
      (a, EDump filename data :: evs)
  end.

(** How a request ends: the returned value, a raised [HTTPException], or
    an exception of the logic that nothing catches. *)
Inductive response (J : Type) : Type :=
| Returned (labeled_data : outcome J) : response J
| HTTPException (status_code : nat) (detail : pystr) : response J
| Uncaught : response J.

Arguments Returned {J} labeled_data.
Arguments HTTPException {J} status_code detail.
Arguments Uncaught {J}.

Definition logic_unavailable {J} : response J :=
  HTTPException 503 (str "Server logic is not available or failed to load.").

Section Serving.

Variable J : Type.
Variable json_loads : pystr -> option J.

(** [imported] tells whether [from fin_logic import ...] succeeded; when
    it did not, the three names are [None] and [all([...])] is false.
    The source's [extract_contextual_amounts(image_bytes)] begins by
    reading the recogniser (line 35) and ends by printing its records
    (line 69). *)
Definition process_invoice_image (imported : bool) (image_bytes : bytes)
  : serve_prog J (response J) :=
  if negb imported then SRet logic_unavailable
  else
    SReadText image_bytes (fun all_fragments =>
      match extract_contextual_amounts all_fragments with
      | None => SRet Uncaught
      | Some contextual_data =>
          SPrint contextual_data
            (call_chain (label_amounts_with_llm json_loads contextual_data)
               (fun labeled_data => SRet (Returned labeled_data)))
      end).

Definition process_invoice_text (imported : bool) (text : pystr)
  : serve_prog J (response J) :=
  if negb imported then SRet logic_unavailable
  else
    match extract_contextual_amounts_from_text text with
    | None => SRet Uncaught
    | Some contextual_data =>
        SDump (str "process_text.json") (RecordsPayload contextual_data)
          (call_chain (label_amounts_with_llm json_loads contextual_data)
             (fun labeled_data =>
                SDump (str "labelled_text.json") (OutcomePayload labeled_data)
                  (SRet (Returned labeled_data))))
    end.

End Serving.

(** * Properties *)

Ltac split_orb_false :=
  repeat match goal with
         | H : (_ || _) = false |- _ => apply orb_false_iff in H; destruct H
         end.

(** ** The Value Normalizer *)

Lemma pystr_eqb_eq a b : pystr_eqb a b = true <-> a = b.
Proof.
  unfold pystr_eqb. destruct (list_eq_dec N.eq_dec a b); split; congruence.
Qed.

Example clean_example :
  clean_monetary_value (str "$1O2O") = Some (str "$1020").
Proof. reflexivity. Qed.

(** The loop of single-character replacements acts on each character
    separately. *)
Lemma apply_corrections_map s : apply_corrections s = map correct_char s.
Proof.
  unfold apply_corrections, replace. simpl. rewrite !map_map.
  apply map_ext. intro c. reflexivity.
Qed.

Lemma is_confusion_keys c :
  is_confusion c = true -> In c (map fst corrections).
Proof.
  unfold is_confusion. rewrite existsb_exists. intros [ec [Hin Heq]].
  apply N.eqb_eq in Heq. subst c. now apply in_map.
Qed.

Lemma correct_char_table c : correct_char c = spec_table c.
Proof.
  destruct (is_confusion c) eqn:Hc.
  - apply is_confusion_keys in Hc. simpl in Hc.
    repeat (destruct Hc as [<- | Hc]; [ reflexivity | ]). contradiction.
  - unfold is_confusion in Hc. simpl in Hc.
    split_orb_false.
    unfold correct_char, spec_table. simpl.
    repeat match goal with H : (c =? _)%N = false |- _ => rewrite H end.
    reflexivity.
Qed.

Lemma correct_char_other c : is_confusion c = false -> correct_char c = c.
Proof.
  intro Hc. unfold is_confusion in Hc. simpl in Hc.
  split_orb_false.
  unfold correct_char. simpl.
  repeat match goal with H : (c =? _)%N = false |- _ => rewrite H end.
  reflexivity.
Qed.

Lemma correct_char_clean c : is_confusion (correct_char c) = false.
Proof.
  destruct (is_confusion c) eqn:Hc.
  - apply is_confusion_keys in Hc. simpl in Hc.
    repeat (destruct Hc as [<- | Hc]; [ reflexivity | ]). contradiction.
  - now rewrite correct_char_other.
Qed.

Lemma correct_char_idem c : correct_char (correct_char c) = correct_char c.
Proof. apply correct_char_other, correct_char_clean. Qed.

Lemma clean_some symbol numeric_part :
  clean_monetary_value (symbol :: numeric_part)
  = Some (symbol :: map correct_char numeric_part).
Proof. simpl. now rewrite apply_corrections_map. Qed.

(** ** The backtracking matcher and the words of a pattern *)

Lemma or_else_some {A} (x y : option A) v :
  or_else x y = Some v -> x = Some v \/ (x = None /\ y = Some v).
Proof. destruct x; simpl; intros; [left | right]; auto. Qed.

Lemma or_else_not_none {A} (x y : option A) :
  x <> None \/ y <> None -> or_else x y <> None.
Proof. destruct x; simpl; intros [H | H]; congruence. Qed.

Lemma rep_loop_sound {A} (body : matcher A) r :
  sound_matcher body r ->
  forall fuel lo hi s k x,
    rep_loop body fuel lo hi s k = Some x ->
    exists m s', s = m ++ s' /\ lang (Rep r lo hi) m /\ k s' = Some x.
Proof.
  intros Hbody. induction fuel as [| fuel IH]; intros lo hi s k x H; simpl in H.
  - destruct (Nat.eqb_spec lo 0); [subst | discriminate].
    exists [], s. repeat split; auto. constructor.
  - apply or_else_some in H. destruct H as [H | [_ H]].
    + assert (Hhi : hi <> Some 0) by (intro; subst hi; discriminate).
      assert (H' : body s (fun s' =>
                  if Nat.ltb (List.length s') (List.length s)
                  then rep_loop body fuel (Nat.pred lo) (option_map Nat.pred hi) s' k
                  else None) = Some x).
      { destruct hi as [[| n] |]; [congruence | exact H | exact H]. }
      clear H. apply Hbody in H'. destruct H' as (m1 & s1 & -> & Hm1 & Hk).
      destruct (Nat.ltb_spec (List.length s1) (List.length (m1 ++ s1))) as [Hlt | _];
        [| discriminate].
      apply IH in Hk. destruct Hk as (m2 & s2 & -> & Hm2 & Hk).
      exists (m1 ++ m2), s2. rewrite <- app_assoc. repeat split; auto.
      apply L_RepS; auto.
      intro; subst m1. simpl in Hlt. lia.
    + destruct (Nat.eqb_spec lo 0); [subst | discriminate].
      exists [], s. repeat split; auto. constructor.
Qed.

Lemma bt_sound {A} r : sound_matcher (@bt A r) r.
Proof.
  induction r as [| c | p | r1 IH1 r2 IH2 | r1 IH1 r2 IH2 | r IH lo hi];
    intros s k x H; simpl in H.
  - exists [], s. repeat split; auto. constructor.
  - destruct s as [| a s]; [discriminate |].
    destruct (N.eqb_spec a c); [subst | discriminate].
    exists [c], s. repeat split; auto. constructor.
  - destruct s as [| a s]; [discriminate |].
    destruct (p a) eqn:Hp; [| discriminate].
    exists [a], s. repeat split; auto. now constructor.
  - apply IH1 in H. destruct H as (m1 & s1 & -> & Hm1 & H).
    apply IH2 in H. destruct H as (m2 & s2 & -> & Hm2 & H).
    exists (m1 ++ m2), s2. rewrite <- app_assoc. repeat split; auto.
    now constructor.
  - apply or_else_some in H. destruct H as [H | [_ H]].
    + apply IH1 in H. destruct H as (m & s' & -> & Hm & H).
      exists m, s'. repeat split; auto. now apply L_AltL.
    + apply IH2 in H. destruct H as (m & s' & -> & Hm & H).
      exists m, s'. repeat split; auto. now apply L_AltR.
  - exact (rep_loop_sound IH (S (List.length s)) lo hi s k H).
Qed.

Lemma rep_loop_complete {A} (body : matcher A) r :
  complete_matcher body r ->
  forall lo hi m, lang (Rep r lo hi) m ->
  forall fuel s' k,
    List.length (m ++ s') < fuel -> k s' <> None ->
    rep_loop body fuel lo hi (m ++ s') k <> None.
Proof.
  intros Hbody lo hi m H.
  remember (Rep r lo hi) as R eqn:ER. revert lo hi ER.
  induction H as [| | | | | | r' hi' | r' lo' hi' m1 m2 Hhi Hm1 H1 _ H2 IH2];
    intros lo hi ER; inversion ER; subst; clear ER;
    intros fuel s' k Hfuel Hk.
  - destruct fuel; simpl; auto.
    apply or_else_not_none. now right.
  - destruct fuel as [| fuel]; [simpl in Hfuel; lia |].
    simpl. apply or_else_not_none. left.
    assert (Hgo : body ((m1 ++ m2) ++ s') (fun s1 =>
                  if Nat.ltb (List.length s1) (List.length ((m1 ++ m2) ++ s'))
                  then rep_loop body fuel (Nat.pred lo) (option_map Nat.pred hi) s1 k
                  else None) <> None).
    { rewrite <- app_assoc. apply Hbody; auto.
      destruct (Nat.ltb_spec (List.length (m2 ++ s')) (List.length (m1 ++ m2 ++ s')))
        as [_ | Hge].
      - apply (IH2 _ _ eq_refl); auto.
        rewrite <- app_assoc, length_app in Hfuel.
        destruct m1; [congruence | simpl in Hfuel; lia].
      - rewrite length_app in Hge. destruct m1; [congruence | simpl in Hge; lia]. }
    destruct hi as [[| n] |]; [congruence | exact Hgo | exact Hgo].
Qed.

Lemma bt_complete {A} r : complete_matcher (@bt A r) r.
Proof.
  induction r as [| c | p | r1 IH1 r2 IH2 | r1 IH1 r2 IH2 | r IH lo hi];
    intros m H s' k Hk.
  - inversion H; subst. exact Hk.
  - inversion H; subst. simpl. now rewrite N.eqb_refl.
  - inversion H; subst. simpl. now rewrite H1.
  - inversion H; subst. simpl. rewrite <- app_assoc. apply IH1; auto.
  - inversion H; subst; simpl; apply or_else_not_none.
    + left. now apply IH1.
    + right. now apply IH2.
  - change (rep_loop (bt r) (S (List.length (m ++ s'))) lo hi (m ++ s') k <> None).
    apply (rep_loop_complete IH H); auto.
Qed.

(** [re.fullmatch] succeeds exactly on the words of the pattern. *)
Lemma fullmatch_lang r s : fullmatch r s = true <-> lang r s.
Proof.
  unfold fullmatch. split.
  - destruct (bt r s _) as [[] |] eqn:H; [| discriminate]. intros _.
    apply bt_sound in H. destruct H as (m & s' & -> & Hm & H).
    destruct s'; [| discriminate]. now rewrite app_nil_r.
  - intro H.
    pose proof (@bt_complete unit r s H []
                  (fun rest => match rest with [] => Some tt | _ => None end)) as Hc.
    rewrite app_nil_r in Hc.
    destruct (bt r s _); [reflexivity |]. exfalso. apply Hc; [discriminate | reflexivity].
Qed.

(** The match found at the head of [s] is a word of the pattern and a
    prefix of [s]. *)
Lemma match_len_sound r s n :
  match_len r s = Some n -> n <= List.length s /\ lang r (firstn n s).
Proof.
  unfold match_len. destruct (bt r s (@Some pystr)) as [rest |] eqn:H; [| discriminate].
  simpl. intros [= <-].
  apply bt_sound in H. destruct H as (m & s' & -> & Hm & [= ->]).
  rewrite length_app. replace (List.length m + List.length rest - List.length rest)
    with (List.length m) by lia.
  split; [lia |].
  rewrite firstn_app, firstn_all, Nat.sub_diag. simpl. now rewrite app_nil_r.
Qed.

Lemma lang_nullable r m : lang r m -> m = [] -> nullable r = true.
Proof.
  induction 1; intros E; simpl; auto; try discriminate.
  - apply app_eq_nil in E. destruct E. rewrite IHlang1, IHlang2; auto.
  - rewrite IHlang; auto.
  - rewrite IHlang; auto. apply orb_true_r.
  - apply app_eq_nil in E. destruct E. contradiction.
Qed.

Lemma lang_nonempty r m : nullable r = false -> lang r m -> m <> [].
Proof.
  intros Hn H E. apply (lang_nullable H) in E. congruence.
Qed.

(** *** The words of the constructs the source's patterns use *)

Lemma lang_lit w m : lang (lit w) m <-> m = w.
Proof.
  revert m. induction w as [| c w IH]; intros m; simpl; split.
  - inversion 1; reflexivity.
  - intros ->. constructor.
  - inversion 1 as [| | | r1 r2 m1 m2 H1 H2 | | | |]; subst.
    inversion H1; subst. apply IH in H2. now subst.
  - intros ->. change (c :: w) with ([c] ++ w).
    constructor; [constructor | now apply IH].
Qed.

Lemma lang_alts rs m : lang (alts rs) m <-> exists r, In r rs /\ lang r m.
Proof.
  induction rs as [| r rs IH].
  - simpl. split; [inversion 1; discriminate | intros (r & [] & _)].
  - destruct rs as [| r' rs].
    + simpl. split; [intro H; exists r; auto | intros (r0 & [<- | []] & H); auto].
    + change (alts (r :: r' :: rs)) with (Alt r (alts (r' :: rs))). split.
      * inversion 1; subst.
        -- exists r. split; [left |]; auto.
        -- apply IH in H3. destruct H3 as (r0 & Hin & Hr0).
           exists r0. split; [right |]; auto.
      * intros (r0 & [<- | Hin] & Hr0).
        -- now apply L_AltL.
        -- apply L_AltR, IH. exists r0; auto.
Qed.

Lemma lang_currency_marker m : lang currency_marker m <-> In m currency_markers.
Proof.
  unfold currency_marker. rewrite lang_alts. split.
  - intros (r & Hin & Hr). apply in_map_iff in Hin. destruct Hin as (w & <- & Hw).
    apply lang_lit in Hr. now subst.
  - intro Hin. exists (lit m). split; [now apply in_map | now apply lang_lit].
Qed.

Lemma lang_Opt r m : lang (Opt r) m <-> m = [] \/ (m <> [] /\ lang r m).
Proof.
  unfold Opt. split.
  - inversion 1 as [| | | | | | | r' lo hi m1 m2 Hhi Hne H1 H2]; subst; [now left |].
    right. simpl in H2.
    inversion H2 as [| | | | | | | r' lo hi m3 m4 Hhi' ]; subst.
    + rewrite app_nil_r. auto.
    + congruence.
  - intros [-> | [Hne H]]; [constructor |].
    rewrite <- (app_nil_r m). apply L_RepS; auto; [discriminate | constructor].
Qed.

Lemma lang_rep_cls p lo m :
  lang (Rep (Cls p) lo None) m <->
  lo <= List.length m /\ Forall (fun c => p c = true) m.
Proof.
  split.
  - intro H. remember (Rep (Cls p) lo None) as R eqn:ER. revert lo ER.
    induction H as [| | | | | | | r' lo' hi' m1 m2 Hhi Hne H1 _ H2 IH];
      intros lo ER; inversion ER; subst; clear ER.
    + split; [simpl; lia | constructor].
    + inversion H1; subst. destruct (IH _ eq_refl) as [Hlen Hall].
      split; [simpl; lia | constructor; auto].
  - revert lo. induction m as [| c m IH]; intros lo [Hlen Hall].
    + simpl in Hlen. replace lo with 0 by lia. constructor.
    + inversion Hall; subst. change (c :: m) with ([c] ++ m).
      apply L_RepS; try discriminate; [now constructor |].
      apply IH. split; [simpl in Hlen; lia | assumption].
Qed.

Lemma lang_Plus_cls p m :
  lang (Plus (Cls p)) m <-> m <> [] /\ Forall (fun c => p c = true) m.
Proof.
  unfold Plus. rewrite lang_rep_cls. split; intros [H1 H2]; split; auto.
  - intros ->. simpl in H1. lia.
  - destruct m; [congruence | simpl; lia].
Qed.

Lemma lang_opt_space m :
  lang (Opt (Cls isspace)) m <->
  m = [] \/ exists c, m = [c] /\ isspace c = true.
Proof.
  rewrite lang_Opt. split.
  - intros [-> | [_ H]]; [now left |]. inversion H; subst. right. eauto.
  - intros [-> | (c & -> & Hc)]; [now left |].
    right. split; [discriminate | now constructor].
Qed.

Lemma lang_Seq r1 r2 m :
  lang (Seq r1 r2) m <-> exists m1 m2, m = m1 ++ m2 /\ lang r1 m1 /\ lang r2 m2.
Proof.
  split.
  - inversion 1; subst. eauto.
  - intros (m1 & m2 & -> & H1 & H2). now constructor.
Qed.

(** The words of the geometric matcher's pattern: a currency marker, at
    most one whitespace character, then a non-empty run of noisy digits. *)
Lemma lang_geo_money_pattern m :
  lang geo_money_pattern m <->
  exists marker blank run,
    m = marker ++ blank ++ run /\
    In marker currency_markers /\
    (blank = [] \/ exists c, blank = [c] /\ isspace c = true) /\
    run <> [] /\ Forall (fun c => noisy_digit c = true) run.
Proof.
  unfold geo_money_pattern. rewrite lang_Seq. split.
  - intros (m1 & m2 & -> & H1 & H2).
    apply lang_Seq in H2. destruct H2 as (m3 & m4 & -> & H3 & H4).
    apply lang_currency_marker in H1. apply lang_opt_space in H3.
    apply lang_Plus_cls in H4. destruct H4.
    exists m1, m3, m4. auto.
  - intros (marker & blank & run & -> & H1 & H2 & H3 & H4).
    exists marker, (blank ++ run). split; [reflexivity |].
    split; [now apply lang_currency_marker |].
    apply lang_Seq. exists blank, run. split; [reflexivity |].
    split; [now apply lang_opt_space | now apply lang_Plus_cls].
Qed.

(** ** The Geometric Context Matcher: classification *)

Lemma classify_from all_fragments amounts others :
  fold_left
    (fun (st : list fragment * list fragment) (f : ocr_fragment) =>
       let '(bbox, text, conf) := f in
       let '(amount_fragments, other_fragments) := st in
       if is_amount_fragment text
       then (amount_fragments ++ [{| bbox := bbox; text := text |}], other_fragments)
       else (amount_fragments, other_fragments ++ [{| bbox := bbox; text := text |}]))
    all_fragments (amounts, others)
  = (amounts ++ map fragment_of
                  (filter (fun f => is_amount_fragment (ocr_text f)) all_fragments),
     others ++ map fragment_of
                 (filter (fun f => negb (is_amount_fragment (ocr_text f))) all_fragments)).
Proof.
  revert amounts others.
  induction all_fragments as [| [[b t] c] fs IH]; intros amounts others.
  - simpl. now rewrite !app_nil_r.
  - cbn [fold_left filter]. change (ocr_text (b, t, c)) with t.
    destruct (is_amount_fragment t); cbn [negb map];
      rewrite IH, <- app_assoc; reflexivity.
Qed.

Lemma classify_filter all_fragments :
  classify all_fragments
  = (map fragment_of
       (filter (fun f => is_amount_fragment (ocr_text f)) all_fragments),
     map fragment_of
       (filter (fun f => negb (is_amount_fragment (ocr_text f))) all_fragments)).
Proof. unfold classify. now rewrite classify_from. Qed.

(** C2 (as amended).  A fragment is an Amount Fragment exactly when its
    whole text is a currency marker of the fixed set (the marker is
    required), then at most one whitespace character, then one or more
    characters of the noisy-digit alphabet; a text that begins with no
    currency marker is not one; the first loop puts the
    matching fragments, in input order, in the amount list and every other
    fragment, in input order, in the candidate list. *)
Theorem amount_fragment_requires_marker :
  forall (all_fragments : list ocr_fragment),
    (forall text,
        is_amount_fragment text = true <->
        exists marker blank run,
          text = marker ++ blank ++ run /\
          In marker currency_markers /\
          (blank = [] \/ exists c, blank = [c] /\ isspace c = true) /\
          run <> [] /\ Forall (fun c => noisy_digit c = true) run) /\
    (forall text,
        (forall marker, In marker currency_markers ->
                        firstn (List.length marker) text <> marker) ->
        is_amount_fragment text = false) /\
    (forall c, noisy_digit c = true <->
               isdecimal c = true \/ In c (str ",OolISZgqB.")) /\
    classify all_fragments
    = (map fragment_of
         (filter (fun f => is_amount_fragment (ocr_text f)) all_fragments),
       map fragment_of
         (filter (fun f => negb (is_amount_fragment (ocr_text f))) all_fragments)).
Proof.
  assert (Hgrammar : forall t,
             is_amount_fragment t = true <-> lang geo_money_pattern t)
    by (intro t; apply fullmatch_lang).
  intro all_fragments. split; [| split; [| split]].
  - intro t. rewrite Hgrammar. apply lang_geo_money_pattern.
  - intros t Hno. destruct (is_amount_fragment t) eqn:E; [| reflexivity].
    apply Hgrammar, lang_geo_money_pattern in E.
    destruct E as (marker & blank & run & -> & Hin & _).
    exfalso. apply (Hno marker Hin).
    rewrite firstn_app, firstn_all, Nat.sub_diag. simpl. apply app_nil_r.
  - intro c. unfold noisy_digit. rewrite orb_true_iff, existsb_exists. split.
    + intros [H | (x & Hin & Hx)]; [now left |].
      apply N.eqb_eq in Hx. subst. now right.
    + intros [H | H]; [now left |]. right. exists c. split; [assumption |].
      apply N.eqb_refl.
  - apply classify_filter.
Qed.

(** C2, counterexample.  The text [123] is a noisy-digit run without a
    currency marker: the grammar with an optional marker accepts it, the
    source's pattern does not, and the fragment becomes a Context
    Candidate. *)
Lemma bare_digit_run_is_context_candidate :
  let box := {| bbox0 := (0, 0)%Q; bbox1 := (30, 0)%Q;
                bbox2 := (30, 10)%Q; bbox3 := (0, 10)%Q |} in
  fullmatch spec_amount_grammar (str "123") = true /\
  is_amount_fragment (str "123") = false /\
  classify [(box, str "123", 1%Q)] = ([], [{| bbox := box; text := str "123" |}]) /\
  ~ (is_amount_fragment (str "123") = true <->
     fullmatch spec_amount_grammar (str "123") = true).
Proof.
  split; [reflexivity |]. split; [reflexivity |]. split; [reflexivity |].
  intros [_ H]. specialize (H eq_refl). vm_compute in H. discriminate.
Qed.

(** ** The Geometric Context Matcher: pairing *)

Lemma Qltb_lt a b : Qltb a b = true <-> (a < b)%Q.
Proof.
  unfold Qltb. rewrite negb_true_iff. split.
  - intro H. apply Qnot_le_lt. intro Hle. apply Qle_bool_iff in Hle. congruence.
  - intro H. destruct (Qle_bool b a) eqn:E; [| reflexivity].
    apply Qle_bool_iff in E. exfalso. exact (Qlt_not_le _ _ H E).
Qed.

Lemma Qltb_ge a b : Qltb a b = false <-> (b <= a)%Q.
Proof.
  unfold Qltb. rewrite negb_false_iff. apply Qle_bool_iff.
Qed.

Lemma qualifies_iff amount other :
  qualifies amount other = true <->
  (Qabs (y_center amount - y_center other) < 20)%Q /\
  (ox_right other < ax_left amount)%Q.
Proof.
  unfold qualifies. rewrite andb_true_iff, !Qltb_lt. reflexivity.
Qed.

Lemma loop_invariant_step amount others st other :
  loop_invariant amount others st ->
  loop_invariant amount (others ++ [other]) (match_step amount st other).
Proof.
  intro Inv. unfold match_step.
  destruct (qualifies amount other) eqn:Hq.
  - destruct st as [[t |] [d |]]; simpl in Inv; try contradiction; simpl.
    + destruct Inv as (i & o & (Hi & Hqo & Hmin) & -> & ->).
      assert (Hlt : i < List.length others) by (apply nth_error_Some; congruence).
      destruct (Qltb (distance amount other) (distance amount o)) eqn:Hd; simpl.
      * apply Qltb_lt in Hd.
        exists (List.length others), other. split; [| auto].
        split; [| split; auto].
        { rewrite nth_error_app2, Nat.sub_diag by lia. reflexivity. }
        intros j o' Hj Hqo'.
        destruct (Nat.lt_ge_cases j (List.length others)) as [Hjl | Hjl].
        -- rewrite nth_error_app1 in Hj by assumption.
           destruct (Hmin j o' Hj Hqo') as [Hle _].
           pose proof (Qlt_le_trans _ _ _ Hd Hle) as Hlt'.
           split; [now apply Qlt_le_weak | auto].
        -- rewrite nth_error_app2 in Hj by assumption.
           destruct (j - List.length others) as [| n] eqn:Hn;
             [| destruct n; discriminate].
           simpl in Hj. injection Hj as <-.
           split; [apply Qle_refl | lia].
      * apply Qltb_ge in Hd.
        exists i, o. split; [| auto].
        split; [| split; auto].
        { rewrite nth_error_app1 by assumption. assumption. }
        intros j o' Hj Hqo'.
        destruct (Nat.lt_ge_cases j (List.length others)) as [Hjl | Hjl].
        -- rewrite nth_error_app1 in Hj by assumption. auto.
        -- rewrite nth_error_app2 in Hj by assumption.
           destruct (j - List.length others) as [| n] eqn:Hn;
             [| destruct n; discriminate].
           simpl in Hj. injection Hj as <-.
           split; [assumption | lia].
    + exists (List.length others), other. split; [| auto].
      split; [| split; auto].
      { rewrite nth_error_app2, Nat.sub_diag by lia. reflexivity. }
      intros j o' Hj Hqo'.
      destruct (Nat.lt_ge_cases j (List.length others)) as [Hjl | Hjl].
      * rewrite nth_error_app1 in Hj by assumption.
        apply nth_error_In in Hj. apply Inv in Hj. congruence.
      * rewrite nth_error_app2 in Hj by assumption.
        destruct (j - List.length others) as [| n] eqn:Hn;
          [| destruct n; discriminate].
        simpl in Hj. injection Hj as <-.
        split; [apply Qle_refl | lia].
  - destruct st as [[t |] [d |]]; simpl in Inv; try contradiction; simpl.
    + destruct Inv as (i & o & (Hi & Hqo & Hmin) & -> & ->).
      assert (Hlt : i < List.length others) by (apply nth_error_Some; congruence).
      exists i, o. split; [| auto].
      split; [| split; auto].
      { rewrite nth_error_app1 by assumption. assumption. }
      intros j o' Hj Hqo'.
      destruct (Nat.lt_ge_cases j (List.length others)) as [Hjl | Hjl].
      * rewrite nth_error_app1 in Hj by assumption. auto.
      * rewrite nth_error_app2 in Hj by assumption.
        destruct (j - List.length others) as [| n] eqn:Hn;
          [| destruct n; discriminate].
        simpl in Hj. injection Hj as <-. congruence.
    + intros o Hin. apply in_app_or in Hin. destruct Hin as [Hin | [<- | []]]; auto.
Qed.

Lemma best_match_invariant amount others :
  loop_invariant amount others (best_match amount others).
Proof.
  unfold best_match. induction others as [| other others IH] using rev_ind.
  - simpl. intros o [].
  - rewrite fold_left_app. simpl. now apply loop_invariant_step.
Qed.

Lemma pair_amounts_contexts amount_fragments other_fragments records :
  pair_amounts amount_fragments other_fragments = Some records ->
  map context records
  = map (fun a => or_unknown (fst (best_match a other_fragments))) amount_fragments.
Proof.
  revert records. induction amount_fragments as [| a rest IH]; intros records; simpl.
  - intros [= <-]. reflexivity.
  - destruct (clean_monetary_value (text a)); [| discriminate].
    destruct (pair_amounts rest other_fragments) as [recs |]; [| discriminate].
    simpl. intros [= <-]. simpl. f_equal. now apply IH.
Qed.

Lemma nearest_first_unique amount others i other i' other' :
  nearest_first amount others i other ->
  nearest_first amount others i' other' -> i = i'.
Proof.
  intros (Hi & Hq & Hmin) (Hi' & Hq' & Hmin').
  destruct (Nat.lt_trichotomy i i') as [Hlt | [Heq | Hgt]]; [| assumption |]; exfalso.
  - destruct (Hmin' i other Hi Hq) as [_ Hs]. destruct (Hmin i' other' Hi' Hq') as [Hle _].
    exact (Qlt_not_le _ _ (Hs Hlt) Hle).
  - destruct (Hmin i' other' Hi' Hq') as [_ Hs]. destruct (Hmin' i other Hi Hq) as [Hle _].
    exact (Qlt_not_le _ _ (Hs Hgt) Hle).
Qed.

(** A vertical-centre difference of exactly 20 does not qualify; one of
    19.999 does. *)
Example row_threshold_boundary :
  let box (y : Q) (x0 x1 : Q) :=
    {| bbox0 := (x0, y); bbox1 := (x1, y); bbox2 := (x1, y + 10); bbox3 := (x0, y + 10) |}%Q in
  let amount := {| bbox := box 100 200 250; text := str "$5" |}%Q in
  qualifies amount {| bbox := box 120 0 50; text := str "Total" |}%Q = false /\
  qualifies amount {| bbox := box (119999 # 1000) 0 50; text := str "Total" |}%Q = true /\
  qualifies amount {| bbox := box 100 0 200; text := str "Total" |}%Q = false.
Proof. vm_compute. repeat split. Qed.


(** ** The Value Normalizer: the claims *)

Lemma is_confusion_iff c : is_confusion c = true <-> In c (str "OolIZgqB").
Proof.
  split.
  - intro H. apply is_confusion_keys in H. exact H.
  - intro H. unfold is_confusion. apply existsb_exists.
    change (str "OolIZgqB") with (map fst corrections) in H.
    apply in_map_iff in H. destruct H as (ec & <- & Hin).
    exists ec. split; [assumption | apply N.eqb_refl].
Qed.

Lemma correct_char_key_digit c :
  is_confusion c = true -> isdecimal (correct_char c) = true.
Proof.
  intro H. apply is_confusion_keys in H. simpl in H.
  repeat (destruct H as [<- | H]; [ reflexivity | ]). contradiction.
Qed.

Lemma correct_char_noisy c :
  noisy_digit c = true ->
  (isdecimal (correct_char c) = true \/ correct_char c = chr "," \/
   correct_char c = chr ".") \/
  (correct_char c = chr "S" /\ c = chr "S").
Proof.
  intro H. destruct (is_confusion c) eqn:Hc.
  - left. left. now apply correct_char_key_digit.
  - rewrite (correct_char_other _ Hc).
    unfold noisy_digit in H. apply orb_true_iff in H. destruct H as [H | H].
    + left. now left.
    + apply existsb_exists in H. destruct H as (x & Hin & Hx).
      apply N.eqb_eq in Hx. subst x. simpl in Hin.
      repeat (destruct Hin as [<- | Hin];
              [ first [ discriminate Hc
                      | left; right; left; reflexivity
                      | left; right; right; reflexivity
                      | right; split; reflexivity ] | ]).
      contradiction.
Qed.

(** C3 (as amended).  For a leading symbol followed by characters of the
    noisy-digit alphabet, the normalizer keeps the first character and
    maps the rest through the table O,o -> 0; l,I -> 1; Z -> 2; g,q -> 9;
    B -> 8: afterwards none of these eight characters remains, and every
    character after the first is a digit, a comma or a period, or an [S]
    that the input had at that position ([S] has no table entry). *)
Theorem normalizer_corrects_tail :
  forall (symbol : char) (tail : pystr),
    Forall (fun c => noisy_digit c = true) tail ->
    exists out,
      clean_monetary_value (symbol :: tail) = Some (symbol :: out) /\
      out = map spec_table tail /\
      Forall (fun c => ~ In c (str "OolIZgqB")) out /\
      forall i c,
        nth_error out i = Some c ->
        (isdecimal c = true \/ c = chr "," \/ c = chr ".") \/
        (c = chr "S" /\ nth_error tail i = Some (chr "S")).
Proof.
  intros symbol tail Htail. exists (map correct_char tail).
  split; [apply clean_some |]. split; [| split].
  - apply map_ext. apply correct_char_table.
  - apply Forall_forall. intros c Hin. apply in_map_iff in Hin.
    destruct Hin as (x & <- & _). rewrite <- is_confusion_iff.
    rewrite correct_char_clean. discriminate.
  - intros i c Hi. rewrite nth_error_map in Hi.
    destruct (nth_error tail i) as [x |] eqn:Hx; [| discriminate].
    simpl in Hi. injection Hi as <-.
    assert (Hn : noisy_digit x = true).
    { rewrite Forall_forall in Htail. apply Htail. eapply nth_error_In; eauto. }
    destruct (correct_char_noisy _ Hn) as [H | [H ->]]; [now left |].
    right. split; [exact H | reflexivity].
Qed.

Lemma normalizer_corrects_tail_witness :
  Forall (fun c => noisy_digit c = true) (str "1O2O") /\
  exists out,
    clean_monetary_value (chr "$" :: str "1O2O") = Some (chr "$" :: out) /\
    out = map spec_table (str "1O2O") /\
    Forall (fun c => ~ In c (str "OolIZgqB")) out /\
    forall i c,
      nth_error out i = Some c ->
      (isdecimal c = true \/ c = chr "," \/ c = chr ".") \/
      (c = chr "S" /\ nth_error (str "1O2O") i = Some (chr "S")).
Proof.
  assert (H : Forall (fun c => noisy_digit c = true) (str "1O2O"))
    by (repeat constructor).
  split; [exact H | exact (normalizer_corrects_tail (chr "$") H)].
Defined.

(** C3, counterexample.  [$S5] is a symbol followed by noisy digits, and
    the [S] is still there after normalization. *)
Lemma S_survives_normalization :
  Forall (fun c => noisy_digit c = true) (str "S5") /\
  clean_monetary_value (chr "$" :: str "S5") = Some (chr "$" :: str "S5") /\
  ~ Forall (fun c => isdecimal c = true \/ c = chr "," \/ c = chr ".") (str "S5").
Proof.
  split; [repeat constructor | split; [reflexivity |]].
  intro H. inversion H as [| c l Hc _]; subst.
  destruct Hc as [Hc | [Hc | Hc]]; vm_compute in Hc; discriminate.
Qed.

(** C10.  On a non-empty string the normalizer returns a string of the
    same length, returns its own output unchanged, and leaves every
    character outside O, o, l, I, Z, g, q, B where it was. *)
Theorem normalizer_idempotent_length_preserving :
  forall s : pystr,
    s <> [] ->
    exists t,
      clean_monetary_value s = Some t /\
      clean_monetary_value t = Some t /\
      List.length t = List.length s /\
      forall i c,
        nth_error s i = Some c -> ~ In c (str "OolIZgqB") ->
        nth_error t i = Some c.
Proof.
  intros [| symbol tail] Hs; [congruence |].
  exists (symbol :: map correct_char tail).
  split; [apply clean_some |]. split; [| split].
  - rewrite clean_some, map_map. do 2 f_equal.
    apply map_ext. apply correct_char_idem.
  - simpl. now rewrite length_map.
  - intros [| i] c Hi Hc; simpl in *; [assumption |].
    rewrite nth_error_map, Hi. simpl. f_equal.
    apply correct_char_other.
    destruct (is_confusion c) eqn:E; [| reflexivity].
    apply is_confusion_iff in E. contradiction.
Qed.

Lemma normalizer_idempotent_length_preserving_witness :
  str "$1O2O" <> [] /\
  exists t,
    clean_monetary_value (str "$1O2O") = Some t /\
    clean_monetary_value t = Some t /\
    List.length t = List.length (str "$1O2O") /\
    forall i c,
      nth_error (str "$1O2O") i = Some c -> ~ In c (str "OolIZgqB") ->
      nth_error t i = Some c.
Proof.
  assert (H : str "$1O2O" <> []) by discriminate.
  split; [exact H | exact (normalizer_idempotent_length_preserving H)].
Defined.

(** ** Slices, tokens and joins *)

Lemma slice_index_nat len i : slice_index len (Z.of_nat i) = Nat.min i len.
Proof.
  unfold slice_index. destruct (Z.ltb_spec (Z.of_nat i) 0); [lia |].
  now rewrite Nat2Z.id.
Qed.

Lemma slice_nat {A} (l : list A) a b :
  slice l (Some (Z.of_nat a)) (Some (Z.of_nat b))
  = firstn (Nat.min b (List.length l) - Nat.min a (List.length l))
           (skipn (Nat.min a (List.length l)) l).
Proof. unfold slice. now rewrite !slice_index_nat. Qed.

Lemma slice_span {A} (l : list A) a b :
  a <= b -> b <= List.length l ->
  slice l (Some (Z.of_nat a)) (Some (Z.of_nat b)) = firstn (b - a) (skipn a l).
Proof.
  intros Hab Hb. rewrite slice_nat.
  now rewrite !Nat.min_l by lia.
Qed.

(** [l[-2:]] is the last two elements (all of [l] if it is shorter). *)
Lemma slice_last_two {A} (l : list A) :
  slice l (Some (-2)%Z) None = skipn (List.length l - 2) l.
Proof.
  unfold slice, slice_index. simpl.
  replace (Z.to_nat (Z.max 0 (Z.of_nat (List.length l) + -2))) with (List.length l - 2) by lia.
  rewrite <- (length_skipn (List.length l - 2) l). apply firstn_all.
Qed.

Lemma context_window_start_nat start :
  context_window_start start = Z.of_nat (start - 30).
Proof. unfold context_window_start. lia. Qed.

Lemma context_window_span text_input start :
  start <= List.length text_input ->
  context_window text_input start
  = firstn (start - (start - 30)) (skipn (start - 30) text_input).
Proof.
  intro H. unfold context_window. rewrite context_window_start_nat.
  apply slice_span; lia.
Qed.

Lemma split_from_nonempty s : forall cur w, In w (split_from cur s) -> w <> [].
Proof.
  induction s as [| c s IH]; intros cur w Hin; simpl in Hin.
  - destruct cur as [| x cur]; [contradiction |].
    destruct Hin as [<- | []]. simpl. intro E. apply app_eq_nil in E.
    destruct E; discriminate.
  - destruct (isspace c).
    + destruct cur as [| x cur]; [eauto |].
      destruct Hin as [<- | Hin]; [| eauto].
      simpl. intro E. apply app_eq_nil in E. destruct E; discriminate.
    + eauto.
Qed.

Lemma split_from_no_space s :
  forall cur w, Forall (fun c => isspace c = false) cur ->
                In w (split_from cur s) -> Forall (fun c => isspace c = false) w.
Proof.
  induction s as [| c s IH]; intros cur w Hcur Hin; simpl in Hin.
  - destruct cur as [| x cur]; [contradiction |].
    destruct Hin as [<- | []]. now apply Forall_rev.
  - destruct (isspace c) eqn:Hc.
    + destruct cur as [| x cur]; [now apply (IH [] w) |].
      destruct Hin as [<- | Hin]; [now apply Forall_rev | now apply (IH [] w)].
    + apply (IH (c :: cur) w); auto.
Qed.

Lemma join_nonempty sep w ws : w <> [] -> join sep (w :: ws) <> [].
Proof.
  intro Hw. destruct ws; simpl; [assumption |].
  intro E. apply app_eq_nil in E. destruct E. contradiction.
Qed.

Lemma skipn_last_two_nonempty {A} (l : list A) :
  l <> [] -> skipn (List.length l - 2) l <> [].
Proof.
  intros Hl E. apply (f_equal (@List.length A)) in E.
  rewrite length_skipn in E. change (List.length (@nil A)) with 0 in E.
  destruct l; [congruence | cbn [List.length] in E; lia].
Qed.

Lemma In_skipn {A} n (l : list A) x : In x (skipn n l) -> In x l.
Proof.
  intro H. rewrite <- (firstn_skipn n l). apply in_or_app. now right.
Qed.

(** The label of a window is never empty. *)
Lemma window_label_nonempty window : window_label window <> [].
Proof.
  unfold window_label. destruct (split (strip window)) as [| w ws] eqn:E.
  - discriminate.
  - rewrite slice_last_two.
    pose proof (@skipn_last_two_nonempty _ (w :: ws)) as Hne.
    destruct (skipn (List.length (w :: ws) - 2) (w :: ws)) as [| w' ws'] eqn:E';
      [exfalso; apply Hne; [discriminate | reflexivity] |].
    apply join_nonempty.
    apply (@split_from_nonempty (strip window) [] w').
    fold (split (strip window)). rewrite E.
    apply (In_skipn (List.length (w :: ws) - 2)). rewrite E'. now left.
Qed.

(** A label is the word [Unknown] only through the fallback or because
    the window holds that single word. *)
Lemma window_label_unknown window :
  window_label window = Unknown <->
  split (strip window) = [] \/ split (strip window) = [Unknown].
Proof.
  unfold window_label. destruct (split (strip window)) as [| w ws] eqn:E.
  - split; auto.
  - rewrite slice_last_two. split.
    + intro H. right. destruct ws as [| w2 ws]; [simpl in H; now subst |].
      exfalso.
      assert (Hsp : exists a b, skipn (List.length (w :: w2 :: ws) - 2) (w :: w2 :: ws) = [a; b]).
      { clear. revert w w2. induction ws as [| w3 ws IH]; intros w w2.
        - simpl. eauto.
        - destruct (IH w2 w3) as (a & b & Hab). exists a, b.
          rewrite <- Hab. simpl. now rewrite !Nat.sub_0_r. }
      destruct Hsp as (a & b & Hab). rewrite Hab in H. simpl in H.
      assert (Hin : In (chr " ") Unknown).
      { rewrite <- H. apply in_or_app. right. now left. }
      vm_compute in Hin. intuition discriminate.
    + intros [H | H]; [discriminate |]. injection H as -> ->. reflexivity.
Qed.

(** ** The scan of [re.finditer] *)

Lemma finditer_from_spans r :
  nullable r = false ->
  forall s pos skip start stop,
    In (start, stop) (finditer_from r s pos skip) ->
    pos + skip <= start /\ start < stop /\ stop <= pos + List.length s /\
    lang r (firstn (stop - start) (skipn (start - pos) s)).
Proof.
  intros Hn. induction s as [| c s IH]; intros pos skip start stop Hin.
  - simpl in Hin. destruct skip; [| contradiction].
    destruct (match_len r []) as [n |] eqn:Hm; [| contradiction].
    apply match_len_sound in Hm. destruct Hm as [_ Hm]. rewrite firstn_nil in Hm.
    exfalso. exact (lang_nonempty Hn Hm eq_refl).
  - cbn [finditer_from] in Hin. destruct skip as [| j].
    + destruct (match_len r (c :: s)) as [n |] eqn:Hm.
      * apply match_len_sound in Hm. destruct Hm as [Hlen Hm].
        assert (Hpos : n <> 0).
        { intros ->. exact (lang_nonempty Hn Hm eq_refl). }
        destruct Hin as [Heq | Hin].
        -- injection Heq as <- <-.
           replace (pos + n - pos) with n by lia. rewrite Nat.sub_diag.
           cbn [skipn]. repeat split; try lia. assumption.
        -- apply IH in Hin. destruct Hin as (H1 & H2 & H3 & H4).
           cbn [List.length]. repeat split; try lia.
           replace (start - pos) with (S (start - S pos)) by lia. exact H4.
      * apply IH in Hin. destruct Hin as (H1 & H2 & H3 & H4).
        cbn [List.length]. repeat split; try lia.
        replace (start - pos) with (S (start - S pos)) by lia. exact H4.
    + apply IH in Hin. destruct Hin as (H1 & H2 & H3 & H4).
      cbn [List.length]. repeat split; try lia.
      replace (start - pos) with (S (start - S pos)) by lia. exact H4.
Qed.

(** Every match of a pattern that cannot match the empty word is a
    non-empty span inside the text whose content is a word of the
    pattern. *)
Lemma finditer_spans r text_input start stop :
  nullable r = false ->
  In (start, stop) (finditer r text_input) ->
  start < stop /\ stop <= List.length text_input /\
  lang r (slice text_input (Some (Z.of_nat start)) (Some (Z.of_nat stop))).
Proof.
  intros Hn Hin. apply (finditer_from_spans r Hn) in Hin.
  destruct Hin as (_ & H2 & H3 & H4). simpl in H3.
  rewrite Nat.sub_0_r in H4.
  repeat split; try assumption. rewrite slice_span by lia. assumption.
Qed.

(** ** The Sequential Context Matcher *)

Lemma record_of_match_span text_input start stop :
  start < stop -> stop <= List.length text_input ->
  exists symbol rest,
    slice text_input (Some (Z.of_nat start)) (Some (Z.of_nat stop)) = symbol :: rest /\
    record_of_match text_input (start, stop)
    = Some {| amount := symbol :: map correct_char rest;
              context := window_label (context_window text_input start) |}.
Proof.
  intros Hlt Hle. unfold record_of_match.
  destruct (slice text_input (Some (Z.of_nat start)) (Some (Z.of_nat stop)))
    as [| symbol rest] eqn:E.
  - exfalso. rewrite slice_span in E by lia.
    apply (f_equal (@List.length char)) in E.
    rewrite length_firstn, length_skipn in E. simpl in E. lia.
  - exists symbol, rest. split; [reflexivity |]. now rewrite clean_some.
Qed.

Lemma records_of_matches_Forall2 text_input (P : nat * nat -> record -> Prop) ms :
  (forall m, In m ms -> exists r, record_of_match text_input m = Some r /\ P m r) ->
  exists records,
    records_of_matches text_input ms = Some records /\ Forall2 P ms records.
Proof.
  induction ms as [| m ms IH]; intro H.
  - exists []. split; [reflexivity | constructor].
  - destruct (H m (or_introl eq_refl)) as (r & Hr & HP).
    destruct IH as (records & Hrs & HF); [intros; apply H; now right |].
    exists (r :: records). simpl. rewrite Hr, Hrs. split; [reflexivity |].
    now constructor.
Qed.

Lemma firstn_split_at {A} (l : list A) a b :
  firstn (a + b) l = firstn a l ++ firstn b (skipn a l).
Proof.
  revert l. induction a as [| a IH]; intros l; simpl; [reflexivity |].
  destruct l as [| x l]; simpl; [now rewrite firstn_nil | now rewrite IH].
Qed.

(** What the loop body makes of one match. *)
Lemma text_match_record text_input start stop :
  In (start, stop) (finditer text_money_pattern text_input) ->
  start < stop /\ stop <= List.length text_input /\
  exists symbol rest,
    slice text_input (Some (Z.of_nat start)) (Some (Z.of_nat stop)) = symbol :: rest /\
    record_of_match text_input (start, stop)
    = Some {| amount := symbol :: map correct_char rest;
              context := window_label (context_window text_input start) |}.
Proof.
  intro Hin. apply finditer_spans in Hin; [| reflexivity].
  destruct Hin as (H1 & H2 & _). repeat split; try assumption.
  now apply record_of_match_span.
Qed.

(** All the records of the sequential matcher, match by match. *)
Lemma sequential_records text_input :
  exists records,
    extract_contextual_amounts_from_text text_input = Some records /\
    Forall2
      (fun (m : nat * nat) r =>
         fst m < snd m /\ snd m <= List.length text_input /\
         exists symbol rest,
           slice text_input (Some (Z.of_nat (fst m))) (Some (Z.of_nat (snd m)))
           = symbol :: rest /\
           amount r = symbol :: map correct_char rest /\
           context r = window_label (context_window text_input (fst m)))
      (finditer text_money_pattern text_input) records.
Proof.
  unfold extract_contextual_amounts_from_text.
  apply records_of_matches_Forall2. intros [start stop] Hin.
  apply text_match_record in Hin.
  destruct Hin as (H1 & H2 & symbol & rest & Hs & Hr).
  eexists. split; [exact Hr |]. simpl. repeat split; try assumption.
  exists symbol, rest. auto.
Qed.

(** ** The Geometric Context Matcher: the records *)

Lemma amount_fragment_nonempty t : is_amount_fragment t = true -> t <> [].
Proof.
  unfold is_amount_fragment. rewrite fullmatch_lang.
  now apply lang_nonempty.
Qed.

Lemma classified_amount all_fragments a :
  In a (fst (classify all_fragments)) -> is_amount_fragment (text a) = true.
Proof.
  rewrite classify_filter. simpl. rewrite in_map_iff.
  intros (f & <- & Hf). apply filter_In in Hf. now destruct Hf.
Qed.

Lemma pair_amounts_Forall2 others (P : fragment -> record -> Prop) amounts :
  (forall a, In a amounts ->
     exists symbol rest,
       text a = symbol :: rest /\
       P a {| amount := symbol :: map correct_char rest;
              context := or_unknown (fst (best_match a others)) |}) ->
  exists records,
    pair_amounts amounts others = Some records /\ Forall2 P amounts records.
Proof.
  induction amounts as [| a amounts IH]; intro H.
  - exists []. split; [reflexivity | constructor].
  - destruct (H a (or_introl eq_refl)) as (symbol & rest & Ht & HP).
    destruct IH as (records & Hrs & HF); [intros; apply H; now right |].
    eexists. cbn [pair_amounts]. rewrite Ht, clean_some, Hrs.
    split; [reflexivity |]. now constructor.
Qed.

Lemma geometric_records all_fragments :
  exists records,
    extract_contextual_amounts all_fragments = Some records /\
    Forall2
      (fun a r =>
         exists symbol rest,
           text a = symbol :: rest /\
           amount r = symbol :: map correct_char rest /\
           context r
           = or_unknown (fst (best_match a (snd (classify all_fragments)))))
      (fst (classify all_fragments)) records.
Proof.
  unfold extract_contextual_amounts.
  pose proof (@classified_amount all_fragments) as Hamt.
  destruct (classify all_fragments) as [amounts others]. cbn [fst snd] in *.
  apply pair_amounts_Forall2. intros a Hin.
  apply Hamt, amount_fragment_nonempty in Hin.
  destruct (text a) as [| symbol rest] eqn:E; [congruence |].
  exists symbol, rest. split; [reflexivity |]. simpl. eauto.
Qed.

Lemma or_unknown_nonempty b : or_unknown b <> [].
Proof. destruct b as [[| c t] |]; discriminate. Qed.

Lemma best_match_label amount others :
  or_unknown (fst (best_match amount others)) = Unknown \/
  exists other, In other others /\
                or_unknown (fst (best_match amount others)) = text other.
Proof.
  pose proof (best_match_invariant amount others) as Inv.
  destruct (best_match amount others) as [[t |] [d |]]; simpl in *;
    try contradiction; [| now left].
  destruct Inv as (i & o & (Hi & _) & -> & _).
  destruct (text o) as [| c t] eqn:E; [now left |].
  right. exists o. split; [eapply nth_error_In; eauto | now rewrite E].
Qed.

Lemma normalized_from_intro symbol rest :
  normalized_from (symbol :: rest) (symbol :: map correct_char rest).
Proof.
  exists symbol, rest. split; [reflexivity |]. f_equal.
  apply map_ext, correct_char_table.
Qed.

Lemma corrected_tail_clean rest :
  Forall (fun c => ~ In c (str "OolIZgqB")) (map correct_char rest).
Proof.
  apply Forall_forall. intros c Hin. apply in_map_iff in Hin.
  destruct Hin as (x & <- & _). rewrite <- is_confusion_iff.
  rewrite correct_char_clean. discriminate.
Qed.

(** ** The claims on the two matchers *)

(** C4 (as amended).  For every match the window starts at
    [max(0, start - 30)], which is never negative, and is exactly the up
    to 30 characters of the text that end where the match starts.  The
    context is [Unknown] when the stripped window has no token, and the
    join of its last two tokens otherwise; so it reads [Unknown] exactly
    when the window has no token or consists of the single token
    [Unknown]. *)
Theorem context_window_and_label :
  forall text_input : pystr,
    exists records,
      extract_contextual_amounts_from_text text_input = Some records /\
      Forall2
        (fun (m : nat * nat) r =>
           let start := fst m in
           let window := context_window text_input start in
           let words := split (strip window) in
           (0 <= context_window_start start)%Z /\
           context_window_start start = Z.of_nat (start - 30) /\
           window = firstn (start - (start - 30)) (skipn (start - 30) text_input) /\
           firstn start text_input = firstn (start - 30) text_input ++ window /\
           List.length window = Nat.min start 30 /\
           (words = [] -> context r = Unknown) /\
           (words <> [] ->
            context r = join (str " ") (skipn (List.length words - 2) words)) /\
           (context r = Unknown <-> words = [] \/ words = [Unknown]))
        (finditer text_money_pattern text_input) records.
Proof.
  intro text_input.
  destruct (sequential_records text_input) as (records & Hr & HF).
  exists records. split; [assumption |].
  eapply Forall2_impl; [| exact HF]. clear.
  intros [start stop] r (Hlt & Hle & symbol & rest & _ & _ & Hc). simpl in *.
  assert (Hw : context_window text_input start
               = firstn (start - (start - 30)) (skipn (start - 30) text_input))
    by (apply context_window_span; lia).
  split; [unfold context_window_start; lia |].
  split; [apply context_window_start_nat |].
  split; [exact Hw |]. split; [| split; [| split; [| split]]].
  - rewrite Hw, <- firstn_split_at. f_equal. lia.
  - rewrite Hw, length_firstn, length_skipn. lia.
  - intro E. rewrite Hc. unfold window_label. now rewrite E.
  - intro E. rewrite Hc. unfold window_label.
    destruct (split (strip (context_window text_input start))); [congruence |].
    now rewrite slice_last_two.
  - rewrite Hc. apply window_label_unknown.
Qed.

(** C4, counterexample.  In [Unknown 5] the window before the match [5]
    holds the token [Unknown], and the context is [Unknown]. *)
Lemma unknown_label_with_token :
  exists r,
    finditer text_money_pattern (str "Unknown 5") = [(8, 9)] /\
    extract_contextual_amounts_from_text (str "Unknown 5") = Some [r] /\
    split (strip (context_window (str "Unknown 5") 8)) = [str "Unknown"] /\
    ~ (context r = Unknown <->
       split (strip (context_window (str "Unknown 5") 8)) = []).
Proof.
  exists {| amount := str "5"; context := Unknown |}.
  split; [reflexivity |]. split; [reflexivity |]. split; [reflexivity |].
  intros [H _]. specialize (H eq_refl). vm_compute in H. discriminate.
Qed.

(** C5.  The sample text of the source yields exactly two records, in
    order: [S745.00] with the last two tokens before it, [Up was], and
    [S1,902.05] with [TOTAL is]. *)
Theorem sample_text_records :
  extract_contextual_amounts_from_text
    (str "The total for the Full Check Up was S745.00. The final invoice TOTAL is S1,902.05.")
  = Some [ {| amount := str "S745.00"; context := str "Up was" |};
           {| amount := str "S1,902.05"; context := str "TOTAL is" |} ].
Proof. vm_compute. reflexivity. Qed.

(** C8.  Every record of either matcher has as amount the matched text
    with its first character kept and the rest mapped through the
    confusion table (none of whose keys remains), and a context that is
    not empty: the text of a candidate or of the window's last tokens, or
    [Unknown]. *)
Theorem emitted_records_invariant :
  forall (all_fragments : list ocr_fragment) (text_input : pystr),
    (exists records,
        extract_contextual_amounts all_fragments = Some records /\
        Forall2
          (fun a r =>
             normalized_from (text a) (amount r) /\
             Forall (fun c => ~ In c (str "OolIZgqB")) (tl (amount r)) /\
             context r <> [] /\
             (context r = Unknown \/
              exists other, In other (snd (classify all_fragments)) /\
                            context r = text other))
          (fst (classify all_fragments)) records) /\
    (exists records,
        extract_contextual_amounts_from_text text_input = Some records /\
        Forall2
          (fun (m : nat * nat) r =>
             normalized_from
               (slice text_input (Some (Z.of_nat (fst m))) (Some (Z.of_nat (snd m))))
               (amount r) /\
             Forall (fun c => ~ In c (str "OolIZgqB")) (tl (amount r)) /\
             context r <> [] /\
             (context r = Unknown \/
              exists words,
                words = split (strip (context_window text_input (fst m))) /\
                words <> [] /\
                context r = join (str " ") (slice words (Some (-2)%Z) None)))
          (finditer text_money_pattern text_input) records).
Proof.
  intros all_fragments text_input. split.
  - destruct (geometric_records all_fragments) as (records & Hr & HF).
    exists records. split; [assumption |].
    eapply Forall2_impl; [| exact HF]. clear.
    intros a r (symbol & rest & Ht & Ha & Hc).
    rewrite Ht, Ha, Hc. split; [apply normalized_from_intro |].
    split; [apply corrected_tail_clean |].
    split; [apply or_unknown_nonempty | apply best_match_label].
  - destruct (sequential_records text_input) as (records & Hr & HF).
    exists records. split; [assumption |].
    eapply Forall2_impl; [| exact HF]. clear.
    intros m r (_ & _ & symbol & rest & Ht & Ha & Hc).
    rewrite Ht, Ha, Hc. split; [apply normalized_from_intro |].
    split; [apply corrected_tail_clean |].
    split; [apply window_label_nonempty |].
    unfold window_label.
    destruct (split (strip (context_window text_input (fst m)))) as [| w ws] eqn:E;
      [now left |].
    right. exists (w :: ws). repeat split; [discriminate].
Qed.

(** C9.  Neither matcher raises: each returns a list with one record per
    fragment (or substring) matching its pattern, the other fragments
    giving no record, and every string handed to the normalizer, the text
    of an Amount Fragment or a matched substring, is non-empty. *)
Theorem matchers_never_raise :
  forall (all_fragments : list ocr_fragment) (text_input : pystr),
    (exists records,
        extract_contextual_amounts all_fragments = Some records /\
        List.length records
        = List.length
            (filter (fun f => is_amount_fragment (ocr_text f)) all_fragments)) /\
    Forall (fun a => text a <> [] /\ clean_monetary_value (text a) <> None)
           (fst (classify all_fragments)) /\
    (exists records,
        extract_contextual_amounts_from_text text_input = Some records /\
        List.length records
        = List.length (finditer text_money_pattern text_input)) /\
    Forall (fun m : nat * nat =>
              let amount_text :=
                slice text_input (Some (Z.of_nat (fst m))) (Some (Z.of_nat (snd m))) in
              amount_text <> [] /\ clean_monetary_value amount_text <> None)
           (finditer text_money_pattern text_input).
Proof.
  intros all_fragments text_input. split; [| split; [| split]].
  - destruct (geometric_records all_fragments) as (records & Hr & HF).
    exists records. split; [assumption |].
    apply Forall2_length in HF. rewrite <- HF, classify_filter. simpl.
    apply length_map.
  - apply Forall_forall. intros a Hin.
    apply classified_amount, amount_fragment_nonempty in Hin.
    destruct (text a); [congruence |]. split; discriminate.
  - destruct (sequential_records text_input) as (records & Hr & HF).
    exists records. split; [assumption |].
    apply Forall2_length in HF. now rewrite HF.
  - apply Forall_forall. intros [start stop] Hin.
    apply text_match_record in Hin.
    destruct Hin as (_ & _ & symbol & rest & Hs & _). simpl. rewrite Hs.
    split; discriminate.
Qed.

(** ** The hand-off to the labeling chain *)

Lemma find_from_notin c s i : ~ In c s -> find_from c s i = (-1)%Z.
Proof.
  revert i. induction s as [| x s IH]; intros i H; simpl; [reflexivity |].
  destruct (N.eqb_spec x c); [exfalso; apply H; now left |].
  apply IH. intro; apply H; now right.
Qed.

Lemma find_from_first c pre rest i :
  ~ In c pre -> find_from c (pre ++ c :: rest) i = (i + Z.of_nat (List.length pre))%Z.
Proof.
  revert i. induction pre as [| x pre IH]; intros i H; simpl.
  - rewrite N.eqb_refl. lia.
  - destruct (N.eqb_spec x c); [exfalso; apply H; now left |].
    rewrite IH by (intro; apply H; now right). lia.
Qed.

Lemma rfind_from_notin c s i last : ~ In c s -> rfind_from c s i last = last.
Proof.
  revert i last. induction s as [| x s IH]; intros i last H; simpl; [reflexivity |].
  destruct (N.eqb_spec x c); [exfalso; apply H; now left |].
  apply IH. intro; apply H; now right.
Qed.

Lemma rfind_from_last c xs post i last :
  ~ In c post ->
  rfind_from c (xs ++ c :: post) i last = (i + Z.of_nat (List.length xs))%Z.
Proof.
  revert i last. induction xs as [| x xs IH]; intros i last H; simpl.
  - rewrite N.eqb_refl, rfind_from_notin by assumption. lia.
  - rewrite IH by assumption. lia.
Qed.

Lemma slice_middle {A} (pre mid post : list A) :
  slice (pre ++ mid ++ post)
        (Some (Z.of_nat (List.length pre)))
        (Some (Z.of_nat (List.length pre + List.length mid)))
  = mid.
Proof.
  rewrite slice_span.
  - rewrite skipn_app, skipn_all, Nat.sub_diag. cbn [skipn app].
    replace (List.length pre + List.length mid - List.length pre)
      with (List.length mid) by lia.
    rewrite firstn_app, firstn_all, Nat.sub_diag. simpl. apply app_nil_r.
  - lia.
  - rewrite !length_app. lia.
Qed.

Section LabelingProperties.

Variable J : Type.
Variable json_loads : pystr -> option J.

Lemma load_response_no_span response_str :
  ~ In (chr "{") response_str \/ ~ In (chr "}") response_str ->
  load_response json_loads response_str = None.
Proof.
  unfold load_response, find, rfind. intros [H | H].
  - now rewrite find_from_notin.
  - rewrite rfind_from_notin by assumption. simpl. now rewrite andb_false_r.
Qed.

Lemma load_response_span pre mid post :
  ~ In (chr "{") pre -> ~ In (chr "}") post ->
  load_response json_loads (pre ++ chr "{" :: mid ++ chr "}" :: post)
  = json_loads (chr "{" :: mid ++ [chr "}"]).
Proof.
  intros Hpre Hpost. unfold load_response, find, rfind.
  rewrite find_from_first by assumption.
  change (pre ++ chr "{" :: mid ++ chr "}" :: post)
    with (pre ++ (chr "{" :: mid) ++ chr "}" :: post).
  rewrite app_assoc, rfind_from_last by assumption.
  rewrite <- app_assoc.
  destruct (Z.eqb_spec (0 + Z.of_nat (List.length pre)) (-1)); [lia |].
  destruct (Z.eqb_spec (0 + Z.of_nat (List.length (pre ++ chr "{" :: mid))) (-1));
    [lia |].
  cbn [negb andb]. f_equal.
  pose proof (slice_middle pre (chr "{" :: mid ++ [chr "}"]) post) as Hs.
  replace (pre ++ (chr "{" :: mid ++ [chr "}"]) ++ post)
    with (pre ++ (chr "{" :: mid) ++ chr "}" :: post) in Hs
    by (simpl; now rewrite <- app_assoc).
  etransitivity; [| exact Hs].
  f_equal; f_equal; rewrite ?length_app; cbn [List.length];
    rewrite ?length_app; cbn [List.length]; lia.
Qed.

Lemma load_response_reversed pre mid post :
  ~ In (chr "{") (pre ++ mid) -> ~ In (chr "}") (mid ++ post) ->
  load_response json_loads (pre ++ chr "}" :: mid ++ chr "{" :: post)
  = json_loads [].
Proof.
  intros Hopen Hclose. unfold load_response, find, rfind.
  change (pre ++ chr "}" :: mid ++ chr "{" :: post)
    with (pre ++ (chr "}" :: mid) ++ chr "{" :: post).
  rewrite app_assoc, find_from_first.
  2:{ intro Hin. apply in_app_or in Hin. destruct Hin as [Hin | [Hin | Hin]].
      - apply Hopen, in_or_app. now left.
      - discriminate.
      - apply Hopen, in_or_app. now right. }
  rewrite <- app_assoc. cbn [app].
  rewrite rfind_from_last.
  2:{ intro Hin. apply in_app_or in Hin. destruct Hin as [Hin | [Hin | Hin]].
      - apply Hclose, in_or_app. now left.
      - discriminate.
      - apply Hclose, in_or_app. now right. }
  destruct (Z.eqb_spec (0 + Z.of_nat (List.length (pre ++ chr "}" :: mid))) (-1));
    [lia |].
  destruct (Z.eqb_spec (0 + Z.of_nat (List.length pre)) (-1)); [lia |].
  cbn [negb andb]. f_equal.
  replace (0 + Z.of_nat (List.length (pre ++ chr "}" :: mid)))%Z
    with (Z.of_nat (List.length (pre ++ chr "}" :: mid))) by lia.
  replace (0 + Z.of_nat (List.length pre) + 1)%Z
    with (Z.of_nat (S (List.length pre))) by lia.
  rewrite slice_nat.
  replace (Nat.min (S (List.length pre)) _ - _) with 0; [reflexivity |].
  rewrite !length_app. cbn [List.length]. rewrite length_app. cbn [List.length]. lia.
Qed.

Lemma parse_response_total response_str :
  parse_response json_loads response_str = invalid_json response_str \/
  exists v, parse_response json_loads response_str = Loaded v.
Proof.
  unfold parse_response.
  destruct (load_response json_loads response_str) as [v |]; eauto.
Qed.

(** C6.  On the empty list the function returns the outcome whose
    status is [no_amounts_found] and the chain is not invoked.  On a
    non-empty list the chain is invoked once, on the lines
    [- Amount: <amount>, Nearby Text: <context>] of the records, in
    order, joined by newlines, and the outcome is read off its
    response. *)
Theorem empty_list_short_circuits :
  forall (llm : pystr -> pystr) (item : record) (items : list record),
    label_amounts_with_llm json_loads [] = Ret no_amounts_found /\
    run llm (label_amounts_with_llm json_loads []) = (no_amounts_found, []) /\
    (exists d, @no_amounts_found J = Dict d /\
               dict_get (str "status") d = Some (str "no_amounts_found")) /\
    let contextual_data := item :: items in
    let context_string :=
      join [10%N]
           (map (fun item => str "- Amount: " ++ amount item
                             ++ str ", Nearby Text: " ++ context item)
                contextual_data) in
    label_amounts_with_llm json_loads contextual_data
    = Invoke context_string
             (fun response_str => Ret (parse_response json_loads response_str)) /\
    run llm (label_amounts_with_llm json_loads contextual_data)
    = (parse_response json_loads (llm context_string), [context_string]).
Proof.
  intros llm item items. split; [reflexivity |]. split; [reflexivity |].
  split; [eexists; split; reflexivity |].
  split; reflexivity.
Qed.


End LabelingProperties.


(** * Further properties of the code *)

(** ** Markers and runs under the normalizer *)

Lemma decimal_not_confusion c : isdecimal c = true -> is_confusion c = false.
Proof.
  intro Hd. destruct (is_confusion c) eqn:Hc; [| reflexivity].
  apply is_confusion_keys in Hc. simpl in Hc.
  repeat (destruct Hc as [<- | Hc]; [vm_compute in Hd; discriminate |]).
  contradiction.
Qed.

Lemma space_not_confusion c : isspace c = true -> is_confusion c = false.
Proof.
  intro Hd. destruct (is_confusion c) eqn:Hc; [| reflexivity].
  apply is_confusion_keys in Hc. simpl in Hc.
  repeat (destruct Hc as [<- | Hc]; [vm_compute in Hd; discriminate |]).
  contradiction.
Qed.

Lemma map_correct_char_fixed l :
  Forall (fun c => is_confusion c = false) l -> map correct_char l = l.
Proof.
  induction 1 as [| c l Hc _ IH]; simpl; [reflexivity |].
  now rewrite IH, correct_char_other.
Qed.

Lemma clean_marker marker rest :
  In marker currency_markers ->
  clean_monetary_value (marker ++ rest)
  = Some (normalized_marker marker ++ map correct_char rest).
Proof.
  intro Hin. simpl in Hin.
  repeat (destruct Hin as [<- | Hin];
          [change (str ?x) with (map N_of_ascii (list_ascii_of_string x));
           cbn [app map list_ascii_of_string];
           rewrite clean_some; reflexivity |]).
  contradiction.
Qed.

Lemma corrected_run_chars run :
  Forall (fun c => noisy_digit c = true) run ->
  Forall (fun c => clean_run_char c = true) (map correct_char run).
Proof.
  induction 1 as [| c l Hc _ IH]; simpl; constructor; [| assumption].
  unfold clean_run_char.
  destruct (correct_char_noisy _ Hc) as [[H | [H | H]] | [H _]]; rewrite H;
    rewrite ?orb_true_r; reflexivity.
Qed.

(** X1.  When the argument begins with a currency marker, the normalizer
    returns the marker unchanged, followed by the corrected rest, for
    every marker but [GBP]; of [GBP] it makes [G8P]. *)
Theorem normalizer_on_currency_markers :
  Forall
    (fun marker =>
       (forall rest,
           clean_monetary_value (marker ++ rest)
           = Some (normalized_marker marker ++ map spec_table rest)) /\
       (marker <> str "GBP" -> normalized_marker marker = marker))
    currency_markers /\
  normalized_marker (str "GBP") = str "G8P".
Proof.
  split; [| reflexivity].
  apply Forall_forall. intros marker Hin. split.
  - intro rest. rewrite (clean_marker rest Hin). do 2 f_equal.
    apply map_ext, correct_char_table.
  - intro Hne. unfold normalized_marker.
    destruct (pystr_eqb marker (str "GBP")) eqn:E; [| reflexivity].
    apply pystr_eqb_eq in E. contradiction.
Qed.

(** ** The words of the sequential matcher's pattern *)

Lemma lang_one_or_two p m :
  lang (Rep (Cls p) 1 (Some 2)) m <->
  exists a, p a = true /\ (m = [a] \/ exists b, p b = true /\ m = [a; b]).
Proof.
  split.
  - inversion 1 as [| | | | | | | r' lo hi m1 m2 Hhi Hne H1 H2]; subst.
    inversion H1; subst. simpl in H2.
    change (Rep (Cls p) 0 (Some 1)) with (Opt (Cls p)) in H2.
    apply lang_Opt in H2. destruct H2 as [-> | [_ H2]].
    + exists c. split; [assumption | now left].
    + inversion H2; subst. exists c. split; [assumption |]. right. eauto.
  - intros (a & Ha & [-> | (b & Hb & ->)]).
    + change [a] with ([a] ++ []). apply L_RepS; try discriminate;
        [now constructor | constructor].
    + change [a; b] with ([a] ++ [b]). apply L_RepS; try discriminate;
        [now constructor |].
      simpl. change (Rep (Cls p) 0 (Some 1)) with (Opt (Cls p)).
      apply lang_Opt. right. split; [discriminate | now constructor].
Qed.

Lemma currency_marker_nonempty marker :
  In marker currency_markers -> marker <> [].
Proof.
  intro Hin. simpl in Hin.
  repeat (destruct Hin as [<- | Hin]; [discriminate |]). contradiction.
Qed.

Lemma lang_text_prefix m :
  lang (Opt (Seq currency_marker (Opt (Cls isspace)))) m <->
  (m = [] \/
   exists marker blank,
     m = marker ++ blank /\ In marker currency_markers /\
     (blank = [] \/ exists c, blank = [c] /\ isspace c = true)).
Proof.
  rewrite lang_Opt. split.
  - intros [-> | [_ H]]; [now left |]. right.
    apply lang_Seq in H. destruct H as (m1 & m2 & -> & H1 & H2).
    apply lang_currency_marker in H1. apply lang_opt_space in H2. eauto.
  - intros [-> | (marker & blank & -> & H1 & H2)]; [now left |]. right. split.
    + pose proof (currency_marker_nonempty H1). destruct marker; [congruence | discriminate].
    + apply lang_Seq. exists marker, blank. split; [reflexivity |].
      split; [now apply lang_currency_marker | now apply lang_opt_space].
Qed.

Lemma lang_text_frac m :
  lang (Opt (Seq (Chr (chr ".")) (Rep (Cls isdecimal) 1 (Some 2)))) m <->
  (m = [] \/
   exists a, isdecimal a = true /\
             (m = [chr "."; a] \/ exists b, isdecimal b = true /\ m = [chr "."; a; b])).
Proof.
  rewrite lang_Opt. split.
  - intros [-> | [_ H]]; [now left |]. right.
    apply lang_Seq in H. destruct H as (m1 & m2 & -> & H1 & H2).
    inversion H1; subst. apply lang_one_or_two in H2.
    destruct H2 as (a & Ha & [-> | (b & Hb & ->)]); exists a; split; auto.
    right. eauto.
  - intros [-> | (a & Ha & H)]; [now left |]. right. split.
    + destruct H as [-> | (b & _ & ->)]; discriminate.
    + apply lang_Seq. destruct H as [-> | (b & Hb & ->)].
      * exists [chr "."], [a]. split; [reflexivity |]. split; [constructor |].
        apply lang_one_or_two. exists a. auto.
      * exists [chr "."], [a; b]. split; [reflexivity |]. split; [constructor |].
        apply lang_one_or_two. exists a. split; [assumption |]. right. eauto.
Qed.

Lemma lang_text_pct m :
  lang (Opt (Chr (chr "%"))) m <-> m = [] \/ m = [chr "%"].
Proof.
  rewrite lang_Opt. split.
  - intros [-> | [_ H]]; [now left |]. inversion H; subst. now right.
  - intros [-> | ->]; [now left |]. right. split; [discriminate | constructor].
Qed.

Lemma lang_text_money_pattern m :
  lang text_money_pattern m <->
  exists prefix digits frac pct,
    m = prefix ++ digits ++ frac ++ pct /\
    text_amount_shape prefix digits frac pct.
Proof.
  unfold text_money_pattern, text_amount_shape. split.
  - intro H.
    apply lang_Seq in H. destruct H as (prefix & m1 & -> & Hp & H).
    apply lang_Seq in H. destruct H as (digits & m2 & -> & Hd & H).
    apply lang_Seq in H. destruct H as (frac & pct & -> & Hf & Hc).
    apply lang_text_prefix in Hp. apply lang_Plus_cls in Hd. destruct Hd.
    apply lang_text_frac in Hf. apply lang_text_pct in Hc.
    exists prefix, digits, frac, pct. auto 10.
  - intros (prefix & digits & frac & pct & -> & Hp & Hne & Hd & Hf & Hc).
    apply lang_Seq. exists prefix, (digits ++ frac ++ pct).
    split; [reflexivity |]. split; [now apply lang_text_prefix |].
    apply lang_Seq. exists digits, (frac ++ pct).
    split; [reflexivity |]. split; [now apply lang_Plus_cls |].
    apply lang_Seq. exists frac, pct.
    split; [reflexivity |]. split; [now apply lang_text_frac | now apply lang_text_pct].
Qed.

Lemma digit_or_comma_not_confusion c :
  digit_or_comma c = true -> is_confusion c = false.
Proof.
  unfold digit_or_comma. rewrite orb_true_iff. intros [H | H].
  - now apply decimal_not_confusion.
  - apply N.eqb_eq in H. now subst.
Qed.

Lemma text_shape_rest_fixed prefix digits frac pct :
  text_amount_shape prefix digits frac pct ->
  Forall (fun c => is_confusion c = false) (digits ++ frac ++ pct).
Proof.
  intros (_ & _ & Hd & Hf & Hc). apply Forall_app. split.
  - eapply Forall_impl; [| exact Hd]. apply digit_or_comma_not_confusion.
  - apply Forall_app. split.
    + destruct Hf as [-> | (a & Ha & [-> | (b & Hb & ->)])];
        repeat constructor; now apply decimal_not_confusion.
    + destruct Hc as [-> | ->]; repeat constructor.
Qed.

Lemma blank_fixed blank :
  blank = [] \/ (exists c, blank = [c] /\ isspace c = true) ->
  Forall (fun c => is_confusion c = false) blank.
Proof.
  intros [-> | (c & -> & Hc)]; repeat constructor. now apply space_not_confusion.
Qed.

Lemma marker_head_GBP marker rest :
  In marker currency_markers ->
  pystr_eqb (firstn 3 (marker ++ rest)) (str "GBP")
  = pystr_eqb marker (str "GBP").
Proof.
  intro Hin. simpl in Hin.
  repeat (destruct Hin as [<- | Hin];
          [ first [ reflexivity
                  | destruct (pystr_eqb _ (str "GBP")) eqn:E at 1; [| reflexivity];
                    apply pystr_eqb_eq in E; destruct rest as [| x [| y rest']];
                    discriminate E ] |]).
  contradiction.
Qed.

(** The normalizer on a word of the sequential pattern: nothing changes
    but a leading [GBP]. *)
Lemma clean_text_match m :
  lang text_money_pattern m ->
  clean_monetary_value m
  = Some (if pystr_eqb (firstn 3 m) (str "GBP")
          then str "G8P" ++ skipn 3 m else m).
Proof.
  intro H. apply lang_text_money_pattern in H.
  destruct H as (prefix & digits & frac & pct & -> & Hshape).
  pose proof (text_shape_rest_fixed Hshape) as Hrest.
  destruct Hshape as (Hp & Hne & Hd & _).
  destruct Hp as [-> | (marker & blank & -> & Hin & Hb)].
  - simpl. destruct digits as [| d digits]; [congruence |].
    inversion Hrest; subst.
    change ((d :: digits) ++ frac ++ pct) with (d :: digits ++ frac ++ pct).
    rewrite clean_some, map_correct_char_fixed by assumption.
    destruct (pystr_eqb _ (str "GBP")) eqn:E; [| reflexivity].
    apply pystr_eqb_eq in E. inversion Hd; subst.
    destruct (digits ++ frac ++ pct) as [| x [| y l]]; try discriminate E.
    injection E as -> _ _. vm_compute in H3. discriminate.
  - rewrite <- app_assoc, (clean_marker _ Hin), (marker_head_GBP _ Hin).
    rewrite map_app, (map_correct_char_fixed (blank_fixed Hb)),
      (map_correct_char_fixed Hrest).
    unfold normalized_marker.
    destruct (pystr_eqb marker (str "GBP")) eqn:E; [| reflexivity].
    apply pystr_eqb_eq in E. subst marker. reflexivity.
Qed.

Lemma sequential_records_lang text_input :
  exists records,
    extract_contextual_amounts_from_text text_input = Some records /\
    Forall2
      (fun (m : nat * nat) r =>
         let amount_text :=
           slice text_input (Some (Z.of_nat (fst m))) (Some (Z.of_nat (snd m))) in
         lang text_money_pattern amount_text /\
         clean_monetary_value amount_text = Some (amount r) /\
         context r = window_label (context_window text_input (fst m)))
      (finditer text_money_pattern text_input) records.
Proof.
  unfold extract_contextual_amounts_from_text.
  apply records_of_matches_Forall2. intros [start stop] Hin.
  pose proof Hin as Hspan. apply finditer_spans in Hspan; [| reflexivity].
  destruct Hspan as (H1 & H2 & Hl).
  destruct (record_of_match_span text_input H1 H2) as (symbol & rest & Hs & Hr).
  eexists. split; [exact Hr |]. cbn [fst snd amount context].
  rewrite Hs in *. split; [assumption |]. split; [apply clean_some | reflexivity].
Qed.

(** X2.  Every substring the sequential matcher takes for an amount is
    made of an optional currency marker with at most one whitespace
    character after it, then one or more digits or commas, then
    optionally a period with one or two digits, then optionally a percent
    sign. *)
Theorem sequential_matches_shape :
  forall text_input : pystr,
    Forall
      (fun m : nat * nat =>
         exists prefix digits frac pct,
           slice text_input (Some (Z.of_nat (fst m))) (Some (Z.of_nat (snd m)))
           = prefix ++ digits ++ frac ++ pct /\
           text_amount_shape prefix digits frac pct)
      (finditer text_money_pattern text_input).
Proof.
  intro text_input. apply Forall_forall. intros [start stop] Hin.
  apply finditer_spans in Hin; [| reflexivity].
  destruct Hin as (_ & _ & Hl). now apply lang_text_money_pattern.
Qed.

(** X3.  In the sequential matcher the normalizer changes nothing but a
    leading [GBP]: the amount of a record is the matched substring itself,
    or that substring with its first three characters [GBP] replaced by
    [G8P]. *)
Theorem sequential_amounts_unchanged_but_GBP :
  forall text_input : pystr,
    exists records,
      extract_contextual_amounts_from_text text_input = Some records /\
      Forall2
        (fun (m : nat * nat) r =>
           let amount_text :=
             slice text_input (Some (Z.of_nat (fst m))) (Some (Z.of_nat (snd m))) in
           amount r = if pystr_eqb (firstn 3 amount_text) (str "GBP")
                      then str "G8P" ++ skipn 3 amount_text
                      else amount_text)
        (finditer text_money_pattern text_input) records.
Proof.
  intro text_input.
  destruct (sequential_records_lang text_input) as (records & Hr & HF).
  exists records. split; [assumption |].
  eapply Forall2_impl; [| exact HF]. clear.
  intros m r (Hl & Hc & _). cbv zeta.
  apply clean_text_match in Hl. rewrite Hl in Hc. now injection Hc.
Qed.

(** ** The scan: order and coverage *)

Lemma finditer_from_sorted r :
  nullable r = false ->
  forall s pos skip, StronglySorted span_before (finditer_from r s pos skip).
Proof.
  intro Hn. induction s as [| c s IH]; intros pos skip.
  - simpl. destruct skip; [| constructor].
    destruct (match_len r []); repeat constructor.
  - cbn [finditer_from]. destruct skip as [| j]; [| apply IH].
    destruct (match_len r (c :: s)) as [n |] eqn:Hm; [| apply IH].
    constructor; [apply IH |].
    apply match_len_sound in Hm. destruct Hm as [_ Hm].
    assert (Hpos : n <> 0) by (intros ->; exact (lang_nonempty Hn Hm eq_refl)).
    apply Forall_forall. intros [start stop] Hin.
    apply (finditer_from_spans r Hn) in Hin. unfold span_before. simpl. lia.
Qed.

Lemma finditer_from_covers r :
  nullable r = false ->
  forall s pos skip p,
    skip <= p -> p < List.length s -> match_len r (skipn p s) <> None ->
    exists start stop,
      In (start, stop) (finditer_from r s pos skip) /\
      start <= pos + p < stop.
Proof.
  intro Hn. induction s as [| c s IH]; intros pos skip p Hskip Hp Hm.
  - simpl in Hp. lia.
  - cbn [finditer_from]. destruct skip as [| j].
    + destruct (match_len r (c :: s)) as [n |] eqn:Hn0.
      * destruct (Nat.lt_ge_cases p n) as [Hlt | Hge].
        -- exists pos, (pos + n). split; [now left | lia].
        -- pose proof Hn0 as Hs. apply match_len_sound in Hs. destruct Hs as [_ Hs].
           assert (Hpos : n <> 0) by (intros ->; exact (lang_nonempty Hn Hs eq_refl)).
           destruct p as [| p']; [lia |].
           destruct (IH (S pos) (Nat.pred n) p') as (start & stop & Hin & Hb);
             [lia | simpl in Hp; lia | exact Hm |].
           exists start, stop. split; [now right | lia].
      * destruct p as [| p']; [simpl in Hm; congruence |].
        destruct (IH (S pos) 0 p') as (start & stop & Hin & Hb);
          [lia | simpl in Hp; lia | exact Hm |].
        exists start, stop. split; [assumption | lia].
    + destruct p as [| p']; [lia |].
      destruct (IH (S pos) j p') as (start & stop & Hin & Hb);
        [lia | simpl in Hp; lia | exact Hm |].
      exists start, stop. split; [assumption | lia].
Qed.

Lemma match_len_complete r m rest :
  lang r m -> match_len r (m ++ rest) <> None.
Proof.
  intro H. unfold match_len.
  pose proof (@bt_complete pystr r m H rest (@Some pystr)) as Hc.
  destruct (bt r (m ++ rest) (@Some pystr)); [discriminate |].
  exfalso. apply Hc; [discriminate | reflexivity].
Qed.

Lemma lang_text_single c :
  digit_or_comma c = true -> lang text_money_pattern [c].
Proof.
  intro Hc. apply lang_text_money_pattern.
  exists [], [c], [], []. split; [reflexivity |].
  unfold text_amount_shape. repeat split; auto. discriminate.
Qed.

Lemma nth_error_skipn_head {A} (l : list A) p c :
  nth_error l p = Some c -> exists rest, skipn p l = c :: rest.
Proof.
  revert p. induction l as [| x l IH]; intros [| p] H; simpl in *; try discriminate.
  - injection H as ->. eauto.
  - now apply IH.
Qed.

Lemma In_slice {A} (l : list A) a b x :
  In x (slice l (Some (Z.of_nat a)) (Some (Z.of_nat b))) -> In x l.
Proof.
  rewrite slice_nat. intro H.
  apply (In_skipn (Nat.min a (List.length l))).
  rewrite <- (firstn_skipn (Nat.min b (List.length l) - Nat.min a (List.length l))
                (skipn (Nat.min a (List.length l)) l)).
  apply in_or_app. now left.
Qed.

Lemma text_match_has_digit m :
  lang text_money_pattern m -> exists c, In c m /\ digit_or_comma c = true.
Proof.
  intro H. apply lang_text_money_pattern in H.
  destruct H as (prefix & digits & frac & pct & -> & _ & Hne & Hd & _).
  destruct digits as [| d digits]; [congruence |]. inversion Hd; subst.
  exists d. split; [| assumption].
  apply in_or_app. right. now left.
Qed.

(** The scan finds nothing exactly in the texts without digit and
    comma. *)
Lemma text_finditer_nil_iff text_input :
  finditer text_money_pattern text_input = [] <->
  Forall (fun c => isdecimal c = false /\ c <> chr ",") text_input.
Proof.
  split.
  - intro Hnil. apply Forall_forall. intros c Hin.
    destruct (digit_or_comma c) eqn:Hc.
    + exfalso. apply In_nth_error in Hin. destruct Hin as (p & Hp).
      assert (Hlt : p < List.length text_input)
        by (apply nth_error_Some; congruence).
      apply nth_error_skipn_head in Hp. destruct Hp as (rest & Hrest).
      destruct (@finditer_from_covers text_money_pattern eq_refl text_input 0 0 p)
        as (start & stop & Hin & _); [lia | assumption | |].
      * rewrite Hrest. apply (@match_len_complete text_money_pattern [c] rest).
        now apply lang_text_single.
      * unfold finditer in Hnil. rewrite Hnil in Hin. contradiction.
    + unfold digit_or_comma in Hc. apply orb_false_iff in Hc. destruct Hc as [Hd Hcm].
      split; [assumption |]. intros ->. vm_compute in Hcm. discriminate.
  - intro Hall.
    destruct (finditer text_money_pattern text_input) as [| [start stop] ms] eqn:E;
      [reflexivity |].
    exfalso.
    assert (Hin : In (start, stop) (finditer text_money_pattern text_input))
      by (rewrite E; now left).
    apply finditer_spans in Hin; [| reflexivity]. destruct Hin as (_ & _ & Hl).
    apply text_match_has_digit in Hl. destruct Hl as (c & Hin & Hc).
    apply In_slice in Hin. rewrite Forall_forall in Hall.
    destruct (Hall c Hin) as [Hd Hcm].
    unfold digit_or_comma in Hc. rewrite Hd in Hc. simpl in Hc.
    apply N.eqb_eq in Hc. contradiction.
Qed.

Lemma sequential_records_nil_iff text_input records :
  extract_contextual_amounts_from_text text_input = Some records ->
  (records = [] <-> finditer text_money_pattern text_input = []).
Proof.
  intro Hr. destruct (sequential_records_lang text_input) as (records' & Hr' & HF).
  rewrite Hr in Hr'. injection Hr' as <-. apply Forall2_length in HF.
  split; intro E; rewrite E in HF; apply length_zero_iff_nil; simpl in HF; lia.
Qed.

(** X4.  The matches of the sequential matcher come in increasing
    order and do not overlap: each one ends at or before the start of
    every later one, and each is a non-empty span inside the text. *)
Theorem sequential_matches_ordered :
  forall text_input : pystr,
    StronglySorted span_before (finditer text_money_pattern text_input) /\
    Forall (fun m : nat * nat =>
              fst m < snd m /\ snd m <= List.length text_input)
           (finditer text_money_pattern text_input).
Proof.
  intro text_input. split.
  - now apply finditer_from_sorted.
  - apply Forall_forall. intros [start stop] Hin.
    apply finditer_spans in Hin; [| reflexivity]. simpl. tauto.
Qed.

(** X5.  No amount is missed: every position of the text at which the
    pattern matches lies inside one of the reported matches; in
    particular every digit and every comma of the text is inside a
    match. *)
Theorem sequential_matches_cover :
  forall (text_input : pystr) (p : nat),
    (p < List.length text_input ->
     match_len text_money_pattern (skipn p text_input) <> None ->
     exists start stop,
       In (start, stop) (finditer text_money_pattern text_input) /\
       start <= p < stop) /\
    (forall c,
        nth_error text_input p = Some c -> digit_or_comma c = true ->
        exists start stop,
          In (start, stop) (finditer text_money_pattern text_input) /\
          start <= p < stop).
Proof.
  intros text_input p.
  assert (Hcover : p < List.length text_input ->
            match_len text_money_pattern (skipn p text_input) <> None ->
            exists start stop,
              In (start, stop) (finditer text_money_pattern text_input) /\
              start <= p < stop).
  { intros Hp Hm.
    destruct (@finditer_from_covers text_money_pattern eq_refl text_input 0 0 p)
      as (start & stop & Hin & Hb); [lia | assumption | assumption |].
    exists start, stop. split; [assumption | lia]. }
  split; [exact Hcover |].
  intros c Hnth Hc. apply Hcover.
  - apply nth_error_Some. congruence.
  - apply nth_error_skipn_head in Hnth. destruct Hnth as (rest & ->).
    apply (@match_len_complete text_money_pattern [c] rest).
    now apply lang_text_single.
Qed.

(** X6.  The sequential matcher returns the empty list exactly for the
    texts that hold neither a decimal digit nor a comma (the empty text
    among them); a comma alone is enough for a record. *)
Theorem sequential_empty_iff_no_digit_or_comma :
  forall text_input : pystr,
    extract_contextual_amounts_from_text text_input = Some [] <->
    Forall (fun c => isdecimal c = false /\ c <> chr ",") text_input.
Proof.
  intro text_input. rewrite <- text_finditer_nil_iff.
  destruct (sequential_records_lang text_input) as (records & Hr & _).
  pose proof (sequential_records_nil_iff _ Hr) as Hnil.
  rewrite Hr. split.
  - intros [= ->]. now apply Hnil.
  - intro E. f_equal. now apply Hnil.
Qed.

(** ** The label of a window *)

Lemma lstrip_length s : List.length (lstrip s) <= List.length s.
Proof.
  induction s as [| c s IH]; simpl; [lia |].
  destruct (isspace c); simpl; lia.
Qed.

Lemma strip_length s : List.length (strip s) <= List.length s.
Proof.
  unfold strip, rstrip.
  pose proof (lstrip_length (rev (lstrip (rev s)))) as H1.
  pose proof (lstrip_length (rev s)) as H2.
  rewrite length_rev in *. lia.
Qed.

Lemma join_cons_length sep w ws :
  List.length (join sep ws) <= List.length (join sep (w :: ws)).
Proof.
  destruct ws as [| w' ws]; [simpl; lia |].
  change (join sep (w :: w' :: ws)) with (w ++ sep ++ join sep (w' :: ws)).
  rewrite !length_app. lia.
Qed.

Lemma join_skipn_length sep k ws :
  List.length (join sep (skipn k ws)) <= List.length (join sep ws).
Proof.
  revert ws. induction k as [| k IH]; intros ws; [simpl; lia |].
  destruct ws as [| w ws]; [simpl; lia |].
  cbn [skipn]. etransitivity; [apply IH | apply join_cons_length].
Qed.

Lemma join_split_length s :
  forall cur,
    List.length (join (str " ") (split_from cur s)) <= List.length cur + List.length s.
Proof.
  induction s as [| c s IH]; intros cur.
  - simpl. destruct cur; simpl; [lia |]. rewrite length_app, length_rev. simpl. lia.
  - cbn [split_from]. destruct (isspace c).
    + destruct cur as [| x cur].
      * specialize (IH []). simpl in *. lia.
      * specialize (IH []).
        destruct (split_from [] s) as [| w ws] eqn:E.
        -- cbn [join]. rewrite length_rev. simpl. lia.
        -- change (join (str " ") (rev (x :: cur) :: w :: ws))
             with (rev (x :: cur) ++ str " " ++ join (str " ") (w :: ws)).
           rewrite !length_app, length_rev. simpl in *. lia.
    + specialize (IH (c :: cur)). simpl in *. lia.
Qed.

Lemma context_window_length text_input start :
  List.length (context_window text_input start) <= 30.
Proof.
  unfold context_window. rewrite context_window_start_nat, slice_nat.
  rewrite length_firstn. lia.
Qed.

Lemma window_label_length window :
  List.length window <= 30 -> List.length (window_label window) <= 30.
Proof.
  intro H. unfold window_label.
  destruct (split (strip window)) as [| w ws] eqn:E; [simpl; lia |].
  rewrite slice_last_two, <- E.
  etransitivity; [apply join_skipn_length |].
  etransitivity; [apply (join_split_length (strip window) []) |].
  pose proof (strip_length window). simpl. lia.
Qed.

Lemma last_two_cases {A} (l : list A) :
  l <> [] ->
  (exists a, skipn (List.length l - 2) l = [a] /\ In a l) \/
  (exists a b, skipn (List.length l - 2) l = [a; b] /\ In a l /\ In b l).
Proof.
  intro Hl.
  assert (Hin : forall x, In x (skipn (List.length l - 2) l) -> In x l)
    by (intros x; apply In_skipn).
  assert (Hlen : 1 <= List.length (skipn (List.length l - 2) l) <= 2).
  { rewrite length_skipn. destruct l; [congruence | cbn [List.length]; lia]. }
  destruct (skipn (List.length l - 2) l) as [| a [| b [| c t]]];
    cbn [List.length] in Hlen; try lia.
  - left. exists a. split; [reflexivity | apply Hin; now left].
  - right. exists a, b. split; [reflexivity |].
    split; apply Hin; [now left | right; now left].
Qed.

Lemma split_tokens s w : In w (split s) -> is_token w.
Proof.
  intro H. split.
  - exact (@split_from_nonempty s [] w H).
  - exact (@split_from_no_space s [] w (Forall_nil _) H).
Qed.

Lemma window_label_tokens window :
  window_label window = Unknown \/
  (exists w, is_token w /\ window_label window = w) \/
  (exists w1 w2, is_token w1 /\ is_token w2 /\
                 window_label window = w1 ++ str " " ++ w2).
Proof.
  unfold window_label. destruct (split (strip window)) as [| w ws] eqn:E; [now left |].
  right. rewrite slice_last_two.
  destruct (@last_two_cases _ (w :: ws)) as [(a & -> & Ha) | (a & b & -> & Ha & Hb)];
    [discriminate | |]; rewrite <- E in *.
  - left. exists a. split; [now apply (@split_tokens (strip window)) | reflexivity].
  - right. exists a, b.
    split; [now apply (@split_tokens (strip window)) |].
    split; [now apply (@split_tokens (strip window)) | reflexivity].
Qed.

Lemma Forall2_Forall_r {A B} (P : A -> B -> Prop) (Q : B -> Prop) l l' :
  (forall a b, P a b -> Q b) -> Forall2 P l l' -> Forall Q l'.
Proof.
  intros H. induction 1; constructor; eauto.
Qed.

(** X7.  Every context of the sequential matcher is at most 30
    characters long, and it is [Unknown], or one token, or two tokens
    with a single space between them, a token being non-empty and free of
    whitespace. *)
Theorem sequential_context_bounded :
  forall text_input : pystr,
    exists records,
      extract_contextual_amounts_from_text text_input = Some records /\
      Forall
        (fun r =>
           List.length (context r) <= 30 /\
           (context r = Unknown \/
            (exists w, is_token w /\ context r = w) \/
            (exists w1 w2, is_token w1 /\ is_token w2 /\
                           context r = w1 ++ str " " ++ w2)))
        records.
Proof.
  intro text_input.
  destruct (sequential_records_lang text_input) as (records & Hr & HF).
  exists records. split; [assumption |].
  eapply Forall2_Forall_r; [| exact HF]. clear.
  intros m r (_ & _ & ->). split.
  - apply window_label_length, context_window_length.
  - apply window_label_tokens.
Qed.

Lemma split_from_spaces cur ws :
  Forall (fun c => isspace c = true) ws -> split_from cur ws = split_from cur [].
Proof.
  intro H. revert cur. induction H as [| c ws Hc _ IH]; intro cur; [reflexivity |].
  cbn [split_from]. rewrite Hc. destruct cur as [| x cur].
  - apply IH.
  - now rewrite IH.
Qed.

Lemma split_from_app_spaces s ws :
  Forall (fun c => isspace c = true) ws ->
  forall cur, split_from cur (s ++ ws) = split_from cur s.
Proof.
  intro H. induction s as [| c s IH]; intro cur.
  - now apply split_from_spaces.
  - cbn [app split_from]. destruct (isspace c); [| apply IH].
    destruct cur; now rewrite IH.
Qed.

Lemma lstrip_spaces s :
  exists ws, Forall (fun c => isspace c = true) ws /\ s = ws ++ lstrip s.
Proof.
  induction s as [| c s (ws & Hws & IH)].
  - exists []. split; [constructor | reflexivity].
  - simpl. destruct (isspace c) eqn:Hc.
    + exists (c :: ws). split; [now constructor | simpl; now f_equal].
    + exists []. split; [constructor | reflexivity].
Qed.

Lemma split_lstrip s : split (lstrip s) = split s.
Proof.
  unfold split. induction s as [| c s IH]; [reflexivity |].
  simpl. destruct (isspace c) eqn:Hc; [exact IH |].
  simpl. now rewrite Hc.
Qed.

Lemma split_rstrip s : split (rstrip s) = split s.
Proof.
  unfold rstrip. destruct (lstrip_spaces (rev s)) as (ws & Hws & E).
  apply (f_equal (@rev char)) in E. rewrite rev_involutive, rev_app_distr in E.
  rewrite E at 2. unfold split. symmetry.
  apply split_from_app_spaces. now apply Forall_rev.
Qed.

(** X8.  Stripping the window before splitting it changes nothing: the
    label is the one computed from the tokens of the window as it is. *)
Theorem strip_before_split_is_redundant :
  forall window : pystr,
    split (strip window) = split window /\
    window_label window
    = match split window with
      | [] => Unknown
      | words => join (str " ") (skipn (List.length words - 2) words)
      end.
Proof.
  intro window.
  assert (H : split (strip window) = split window)
    by (unfold strip; now rewrite split_lstrip, split_rstrip).
  split; [exact H |].
  unfold window_label. rewrite H.
  destruct (split window); [reflexivity | now rewrite slice_last_two].
Qed.

(** ** The Geometric Context Matcher: shapes and independence *)

Lemma pair_amounts_map others (Q : ocr_fragment -> Prop) fs :
  (forall f, In f fs -> Q f /\ ocr_text f <> []) ->
  exists records,
    pair_amounts (map fragment_of fs) others = Some records /\
    Forall2
      (fun f r =>
         Q f /\
         clean_monetary_value (ocr_text f) = Some (amount r) /\
         context r = or_unknown (fst (best_match (fragment_of f) others)))
      fs records.
Proof.
  induction fs as [| f fs IH]; intro H.
  - exists []. split; [reflexivity | constructor].
  - destruct (H f (or_introl eq_refl)) as (HQ & Hne).
    destruct IH as (records & Hrs & HF); [intros; apply H; now right |].
    destruct (ocr_text f) as [| symbol rest] eqn:E; [congruence |].
    eexists. cbn [map pair_amounts]. change (text (fragment_of f)) with (ocr_text f).
    rewrite E, clean_some, Hrs. split; [reflexivity |].
    constructor; [| assumption]. cbn [amount context].
    rewrite E, clean_some. auto.
Qed.

Lemma geometric_records_filter all_fragments :
  exists records,
    extract_contextual_amounts all_fragments = Some records /\
    Forall2
      (fun f r =>
         is_amount_fragment (ocr_text f) = true /\
         clean_monetary_value (ocr_text f) = Some (amount r) /\
         context r
         = or_unknown (fst (best_match (fragment_of f)
                                       (snd (classify all_fragments)))))
      (filter (fun f => is_amount_fragment (ocr_text f)) all_fragments) records.
Proof.
  unfold extract_contextual_amounts. rewrite classify_filter. cbn [snd].
  apply pair_amounts_map. intros f Hin. apply filter_In in Hin.
  destruct Hin as [_ Hf]. split; [assumption | now apply amount_fragment_nonempty].
Qed.

(** X9.  The geometric matcher emits one record per fragment matching
    its pattern, in input order; the amount of the record is the
    fragment's currency marker ([GBP] turned into [G8P]), the whitespace
    character after it if there was one, and the corrected run, in which
    only digits, commas, periods and [S] occur. *)
Theorem geometric_amounts_shape :
  forall all_fragments : list ocr_fragment,
    exists records,
      extract_contextual_amounts all_fragments = Some records /\
      Forall2
        (fun f r =>
           exists marker blank run,
             ocr_text f = marker ++ blank ++ run /\
             In marker currency_markers /\
             (blank = [] \/ exists c, blank = [c] /\ isspace c = true) /\
             run <> [] /\
             amount r = normalized_marker marker ++ blank ++ map spec_table run /\
             Forall (fun c => clean_run_char c = true) (map spec_table run))
        (filter (fun f => is_amount_fragment (ocr_text f)) all_fragments) records.
Proof.
  intro all_fragments.
  destruct (geometric_records_filter all_fragments) as (records & Hr & HF).
  exists records. split; [assumption |].
  eapply Forall2_impl; [| exact HF]. clear.
  intros f r (Hamt & Hclean & _).
  unfold is_amount_fragment in Hamt.
  apply fullmatch_lang, lang_geo_money_pattern in Hamt.
  destruct Hamt as (marker & blank & run & E & Hin & Hb & Hne & Hrun).
  exists marker, blank, run. repeat split; try assumption.
  - rewrite E, (clean_marker _ Hin) in Hclean. injection Hclean as <-.
    rewrite map_app, (map_correct_char_fixed (blank_fixed Hb)).
    do 2 f_equal. apply map_ext, correct_char_table.
  - rewrite <- (map_ext _ _ correct_char_table). now apply corrected_run_chars.
Qed.

Lemma classified_other all_fragments other :
  In other (snd (classify all_fragments)) ->
  is_amount_fragment (text other) = false.
Proof.
  rewrite classify_filter. simpl. rewrite in_map_iff.
  intros (f & <- & Hf). apply filter_In in Hf. destruct Hf as [_ Hf].
  now apply negb_true_iff in Hf.
Qed.

(** X10.  A context of the geometric matcher is never itself
    amount-shaped: a fragment that matches the pattern is never used as
    the label of another amount. *)
Theorem geometric_context_is_not_an_amount :
  forall all_fragments : list ocr_fragment,
    exists records,
      extract_contextual_amounts all_fragments = Some records /\
      Forall (fun r => is_amount_fragment (context r) = false) records.
Proof.
  intro all_fragments.
  destruct (geometric_records_filter all_fragments) as (records & Hr & HF).
  exists records. split; [assumption |].
  eapply Forall2_Forall_r; [| exact HF].
  intros f r (_ & _ & ->).
  destruct (best_match_label (fragment_of f) (snd (classify all_fragments)))
    as [-> | (other & Hin & ->)]; [reflexivity |].
  now apply classified_other in Hin.
Qed.

Lemma filter_map_comm {A B} (h : A -> B) (p : B -> bool) l :
  filter p (map h l) = map h (filter (fun x => p (h x)) l).
Proof.
  induction l as [| x l IH]; simpl; [reflexivity |].
  destruct (p (h x)); simpl; now rewrite IH.
Qed.

(** X11.  The confidence of a fragment is never looked at: replacing
    the confidences by any others gives the same records. *)
Theorem confidence_is_ignored :
  forall (all_fragments : list ocr_fragment) (conf : ocr_fragment -> Q),
    extract_contextual_amounts (map (fun f => (fst f, conf f)) all_fragments)
    = extract_contextual_amounts all_fragments.
Proof.
  intros all_fragments conf. unfold extract_contextual_amounts.
  rewrite !classify_filter, !filter_map_comm, !map_map. reflexivity.
Qed.

Lemma fold_match_step_filter amount others :
  forall st,
    fold_left (match_step amount) (filter (qualifies amount) others) st
    = fold_left (match_step amount) others st.
Proof.
  induction others as [| o others IH]; intro st; [reflexivity |].
  simpl. destruct (qualifies amount o) eqn:Hq.
  - simpl. apply IH.
  - rewrite IH. unfold match_step at 3. now rewrite Hq.
Qed.

(** X12.  Candidates that do not qualify have no influence: the inner
    loop ends in the same state on the qualifying candidates alone, and
    a finite [min_distance] is the positive distance of a qualifying
    candidate. *)
Theorem non_qualifying_candidates_ignored :
  forall (amount : fragment) (others : list fragment),
    best_match amount (filter (qualifies amount) others)
    = best_match amount others /\
    match snd (best_match amount others) with
    | Some d =>
        (0 < d)%Q /\
        exists other, In other others /\ qualifies amount other = true /\
                      d = distance amount other
    | None => fst (best_match amount others) = None
    end.
Proof.
  intros amount others. split; [apply fold_match_step_filter |].
  pose proof (best_match_invariant amount others) as Inv.
  destruct (best_match amount others) as [[t |] [d |]]; simpl in *;
    try contradiction; [| reflexivity].
  destruct Inv as (i & o & (Hi & Hq & _) & _ & ->). split.
  - apply qualifies_iff in Hq. destruct Hq as [_ Hq].
    unfold distance. now rewrite <- (Qlt_minus_iff (ox_right o) (ax_left amount)).
  - exists o. split; [eapply nth_error_In; eauto | auto].
Qed.

(** ** The serving layer *)

Lemma filter_nil_iff {A} (p : A -> bool) l :
  filter p l = [] <-> Forall (fun x => p x = false) l.
Proof.
  induction l as [| x l IH]; simpl.
  - split; [constructor | reflexivity].
  - destruct (p x) eqn:E; split.
    + discriminate.
    + intro H. inversion H; subst. congruence.
    + intro H. constructor; [assumption | now apply IH].
    + intro H. inversion H; subst. now apply IH.
Qed.

Lemma serve_call_chain {J A B} readtext llm (p : chain_prog A)
      (k : A -> serve_prog J B) :
  serve readtext llm (call_chain p k)
  = (fst (serve readtext llm (k (fst (run llm p)))),
     map (@EInvoke J) (snd (run llm p))
     ++ snd (serve readtext llm (k (fst (run llm p))))).
Proof.
  induction p as [a | context_string k' IH]; cbn [call_chain run serve].
  - simpl. now destruct (serve readtext llm (k a)).
  - rewrite IH. destruct (run llm (k' (llm context_string))) as [a calls].
    reflexivity.
Qed.

Section ServingProperties.

Variable J : Type.
Variable json_loads : pystr -> option J.

Lemma run_label llm contextual_data :
  run llm (label_amounts_with_llm json_loads contextual_data)
  = match contextual_data with
    | [] => (no_amounts_found, [])
    | _ => (parse_response json_loads (llm (context_string_of contextual_data)),
            [context_string_of contextual_data])
    end.
Proof. destruct contextual_data; reflexivity. Qed.



End ServingProperties.
